(** * RetroWaveVisualizer: band extraction and ridge terrain

    A shallow embedding of the algorithmic core of
    [retro-wave/src/RetroWaveVisualizer.tsx]:

    - [pseudoRandom] and [createRidgeShape] (seeded ridge outlines),
    - [averageBand] and [tick] (banded energy with smoothing),
    - the [useAudioBands] effect, as a transition system over the
      capture sessions it spawns,
    - the layer table and the per-frame offsets of [ValleyRanges].

    JavaScript numbers are modelled as real numbers: the rounding of
    IEEE-754 doubles is not part of the model.  Integer-valued loop
    counters and byte sums, which doubles represent exactly, are kept
    as [nat] and [Z] so that the loops compute. *)

From Stdlib Require Import String.
From Stdlib Require Import Reals Lra Lia ZArith List Bool.
Import ListNotations.
Open Scope R_scope.

(** ** Numeric built-ins *)

Module JS.

(** [Math.floor], on reals. *)
Definition Math_floor (x : R) : R := IZR (Int_part x).

(** [Math.sin]. *)
Definition Math_sin (x : R) : R := sin x.

(** [Math.pow(x, y)] for a base [x >= 0] and an exponent [y > 0], the
    only way the source calls it (base [1 - i/10], exponent [0.8]):
    [exp (y * ln x)] for a positive base and [0] at base [0]. *)
Definition Math_pow (x y : R) : R :=
  if Rlt_dec 0 x then Rpower x y else 0.

End JS.

Module Three.

(** Modelled from the spec: [THREE.MathUtils.lerp] belongs to the
    three.js library and is not part of the repository's sources; the
    spec describes it as "linear interpolation toward target",
    [previous + (target - previous) * factor]. *)
Definition lerp (x y t : R) : R := x + (y - x) * t.

(** A [THREE.Shape], seen through the path calls it has received, in
    call order. *)
Inductive PathOp : Type :=
| MoveTo (x y : R)
| LineTo (x y : R)
| ClosePath.

Definition Shape : Type := list PathOp.

(** The arguments given to [new THREE.Color().setRGB(r, g, b)]; the CSS
    string that [getStyle()] prints from them is not modelled. *)
Record Color : Type := setRGB { red : R; green : R; blue : R }.

(** The part of a [THREE.Group] the frame callback writes. *)
Record Group : Type := mkGroup { position_y : R }.

End Three.

(** ** Lists updated by index *)

Fixpoint list_update {A : Type} (n : nat) (f : A -> A) (l : list A) : list A :=
  match l, n with
  | [], _ => []
  | a :: l', O => f a :: l'
  | a :: l', S n' => a :: list_update n' f l'
  end.

(** ** The smoothed control signal *)

Record AudioBands : Type := mkBands { bass : R; mid : R; treble : R }.

Definition EMPTY_BANDS : AudioBands := {| bass := 0; mid := 0; treble := 0 |}.

Definition set_bass (b : AudioBands) (v : R) : AudioBands :=
  {| bass := v; mid := mid b; treble := treble b |}.
Definition set_mid (b : AudioBands) (v : R) : AudioBands :=
  {| bass := bass b; mid := v; treble := treble b |}.
Definition set_treble (b : AudioBands) (v : R) : AudioBands :=
  {| bass := bass b; mid := mid b; treble := v |}.

(** ** The ambient state of the component

    What the code of the module can reach besides its arguments: the
    render clock, the shared [bands] ref and the shape objects allocated
    so far.  A shape reference is the index of the object in [shapes]. *)

Record World : Type := mkWorld {
  clock : R;
  bandsRef : AudioBands;
  shapes : list Three.Shape
}.

Definition ShapeRef : Type := nat.

Definition withShapes (w : World) (ss : list Three.Shape) : World :=
  {| clock := clock w; bandsRef := bandsRef w; shapes := ss |}.

(** State passing over [World]. *)
Definition M (A : Type) : Type := World -> A * World.

Definition ret {A : Type} (a : A) : M A := fun w => (a, w).

Definition bind {A B : Type} (m : M A) (k : A -> M B) : M B :=
  fun w => let (a, w') := m w in k a w'.

Declare Scope world_scope.
Delimit Scope world_scope with world.
Notation "x <- m ;; k" := (bind m (fun x => k))
  (at level 61, m at next level, right associativity) : world_scope.
Notation "m ;; k" := (bind m (fun _ => k))
  (at level 61, right associativity) : world_scope.
Open Scope world_scope.

(** [new THREE.Shape()]: a fresh object with an empty path. *)
Definition newShape : M ShapeRef :=
  fun w => (length (shapes w), withShapes w (shapes w ++ [[]])).

(** A path call mutates the object behind the reference. *)
Definition pathCall (shape : ShapeRef) (op : Three.PathOp) : M unit :=
  fun w => (tt, withShapes w (list_update shape (fun p => p ++ [op]) (shapes w))).

Definition moveTo (shape : ShapeRef) (x y : R) : M unit := pathCall shape (Three.MoveTo x y).
Definition lineTo (shape : ShapeRef) (x y : R) : M unit := pathCall shape (Three.LineTo x y).
Definition closePath (shape : ShapeRef) : M unit := pathCall shape Three.ClosePath.

(** [for (let i = i0; cond(i); i += 1) body(i)], with a bound on the
    number of iterations. *)
Fixpoint for_loop (fuel : nat) (i : nat) (cond : nat -> bool) (body : nat -> M unit) : M unit :=
  match fuel with
  | O => ret tt
  | S fuel' =>
      if cond i then body i ;; for_loop fuel' (S i) cond body else ret tt
  end.

(** [Array.prototype.map] with a callback that has effects. *)
Fixpoint mapM {A B : Type} (f : A -> M B) (l : list A) : M (list B) :=
  match l with
  | [] => ret []
  | a :: l' => b <- f a ;; bs <- mapM f l' ;; ret (b :: bs)
  end.

(** ** Ridge outlines *)

Inductive Side : Type := left | right.

Definition pseudoRandom (seed : R) : R :=
  let x := JS.Math_sin (seed * 12.9898) * 43758.5453123 in
  x - JS.Math_floor x.

Definition points : nat := 10.

(** The body of the sampling loop of [createRidgeShape]. *)
Definition ridgeSample (shape : ShapeRef) (outerX valleyX seed baseY height : R)
    (i : nat) : M unit :=
  let t := INR i / INR points in
  let x := Three.lerp outerX valleyX t in
  let ridgeFalloff := JS.Math_pow (1 - t) 0.8 in
  let noise := 0.58 + pseudoRandom (seed + INR i * 17.1) * 0.9 in
  let y := baseY + height * noise * ridgeFalloff in
  lineTo shape x y.

Definition createRidgeShape (side : Side) (seed baseY valleyHalf height : R) : M ShapeRef :=
  let outerX := match side with left => -14 | right => 14 end in
  let valleyX := match side with left => - valleyHalf | right => valleyHalf end in
  shape <- newShape ;;
  moveTo shape outerX (-4.8) ;;
  lineTo shape outerX (baseY + 0.2) ;;
  for_loop (S points) 0 (fun i => i <=? points)%nat
    (ridgeSample shape outerX valleyX seed baseY height) ;;
  lineTo shape valleyX (-4.8) ;;
  closePath shape ;;
  ret shape.

(** The points an outline visits, in order. *)
Definition outline (s : Three.Shape) : list (R * R) :=
  flat_map (fun op => match op with
                      | Three.MoveTo x y => [(x, y)]
                      | Three.LineTo x y => [(x, y)]
                      | Three.ClosePath => []
                      end) s.

(** The shape object behind a reference. *)
Definition shapeAt (w : World) (r : ShapeRef) : Three.Shape := nth r (shapes w) [].

(** ** Band extraction *)

(** [analyser.fftSize = 512]; [frequencyBinCount] is half of it. *)
Definition fftSize : nat := 512.
Definition frequencyBinCount : nat := Nat.div fftSize 2.

(** The [Uint8Array] of bin magnitudes. *)
Definition valid_snapshot (frequencyBuffer : list Z) : Prop :=
  Forall (fun v => (0 <= v <= 255)%Z) frequencyBuffer.

(** The loop of [averageBand], from index [i] with the accumulators
    [sum] and [count]. *)
Fixpoint averageBand_loop (fuel : nat) (frequencyBuffer : list Z) (end_ i : nat)
    (sum count : Z) : Z * Z :=
  match fuel with
  | O => (sum, count)
  | S fuel' =>
      if (i <=? end_)%nat && (i <? length frequencyBuffer)%nat then
        averageBand_loop fuel' frequencyBuffer end_ (S i)
          (sum + nth i frequencyBuffer 0%Z) (count + 1)
      else (sum, count)
  end.

Definition averageBand (frequencyBuffer : list Z) (start end_ : nat) : R :=
  let (sum, count) :=
    averageBand_loop (S (length frequencyBuffer)) frequencyBuffer end_ start 0 0 in
  if (0 <? count)%Z then IZR sum / (IZR count * 255) else 0.

(** One extraction cycle on the buffer that [getByteFrequencyData] has
    filled; the three fields are written one after the other. *)
Definition tick (frequencyBuffer : list Z) (bands : AudioBands) : AudioBands :=
  let bass_ := averageBand frequencyBuffer 0 14 in
  let mid_ := averageBand frequencyBuffer 18 70 in
  let treble_ := averageBand frequencyBuffer 90 180 in
  let bands := set_bass bands (Three.lerp (bass bands) bass_ 0.2) in
  let bands := set_mid bands (Three.lerp (mid bands) mid_ 0.2) in
  let bands := set_treble bands (Three.lerp (treble bands) treble_ 0.2) in
  bands.

(** [n] extraction cycles, one snapshot each. *)
Definition ticks (snapshots : list (list Z)) (bands : AudioBands) : AudioBands :=
  fold_left (fun b s => tick s b) snapshots bands.

(** ** The layer table of [ValleyRanges] *)

Record RidgeLayer : Type := mkRidgeLayer {
  z : R;
  baseY : R;
  fill : Three.Color;
  stroke : Three.Color;
  valleyHalf : R;
  ridgeHeight : R;
  motion : R;
  leftShape : ShapeRef;
  rightShape : ShapeRef
}.

(** The callback given to [Array.from({ length: 5 }).map]. *)
Definition ridgeLayer (index : nat) : M RidgeLayer :=
  let depth := INR index / 4 in
  let z_ := -8.5 - INR index * 1.45 in
  let valleyHalf_ := 3.4 - depth * 2.15 in
  let baseY_ := -1.26 + depth * 0.42 in
  let ridgeHeight_ := 2.45 - depth * 0.92 in
  let colorMix := 0.2 + depth * 0.65 in
  let fill_ := Three.setRGB (0.04 + colorMix * 0.15) 0.02 (0.14 + colorMix * 0.16) in
  let stroke_ := Three.setRGB (0.1 + colorMix * 0.2) (0.5 + colorMix * 0.3) 0.95 in
  leftShape_ <- createRidgeShape left (30 + INR index * 12.3) baseY_ valleyHalf_ ridgeHeight_ ;;
  rightShape_ <- createRidgeShape right (70 + INR index * 13.7) baseY_ valleyHalf_ ridgeHeight_ ;;
  ret {| z := z_;
         baseY := baseY_;
         fill := fill_;
         stroke := stroke_;
         valleyHalf := valleyHalf_;
         ridgeHeight := ridgeHeight_;
         motion := 0.08 + INR index * 0.06;
         leftShape := leftShape_;
         rightShape := rightShape_ |}.

Definition layers : M (list RidgeLayer) := mapM ridgeLayer (seq 0 5).

(** ** The frame callback of [ValleyRanges] *)

(** [leftRefs.current] and [rightRefs.current]: a slot is [None] while
    its group is not mounted. *)
Definition Refs : Type := list (option Three.Group).

(** [if (g) g.position.y = y] for [g = refs[index]]. *)
Definition setPositionY (refs : Refs) (index : nat) (y : R) : Refs :=
  list_update index
    (fun g => match g with
              | Some _ => Some (Three.mkGroup y)
              | None => None
              end) refs.

Definition frameLayer (t pulse : R) (layer : RidgeLayer) (index : nat)
    (refs : Refs * Refs) : Refs * Refs :=
  let drift := JS.Math_sin (t * (0.34 + motion layer) + INR index * 0.62) * motion layer in
  let lift := pulse * motion layer * 0.65 in
  let y := drift + lift in
  (setPositionY (fst refs) index y, setPositionY (snd refs) index (y * 0.9)).

(** [Array.prototype.forEach((element, index) => ...)] from [index] on. *)
Fixpoint forEach_from {A St : Type} (f : A -> nat -> St -> St) (l : list A) (index : nat)
    (s : St) : St :=
  match l with
  | [] => s
  | a :: l' => forEach_from f l' (S index) (f a index s)
  end.

Definition valleyFrame (ls : list RidgeLayer) (w : World) (refs : Refs * Refs) : Refs * Refs :=
  let t := clock w in
  let pulse := mid (bandsRef w) in
  forEach_from (frameLayer t pulse) ls 0%nat refs.

(** ** The capture effect of [useAudioBands]

    Every run of the effect with [enabled = true] opens a session: its
    [init] awaits the media stream, then [audioContext.resume()], then
    starts the [tick] loop on animation frames.  The settling of the two
    promises and the firing of animation frames are events of the
    environment. *)

Module Capture.

Inductive AudioMode : Type := mic | tab.

Inductive Stage : Type :=
| GettingStream   (* awaiting getDisplayMedia / getUserMedia *)
| Resuming        (* awaiting audioContext.resume() *)
| Started         (* analyser set up, tick() called *)
| Finished.       (* init returned or threw *)

(** The variables one run of the effect closes over. *)
Record Session : Type := mkSession {
  mode : AudioMode;
  cancelled : bool;
  animationFrameId : nat;
  stage : Stage
}.

(** A promise resolves, or rejects with a caught value whose [message]
    is known when it is an [Error]. *)
Inductive Outcome : Type :=
| Resolved
| Rejected (message : option String.string).

Inductive Event : Type :=
| Effect (m : AudioMode) (enabled : bool)
    (* React re-runs the effect: cleanup of the previous run, then the body *)
| StreamSettled (s : nat) (o : Outcome)
| ResumeSettled (s : nat) (o : Outcome) (snapshot : list Z)
    (* on success the rest of the try block runs, up to the first tick();
       a rejection stands for any exception of that block *)
| AnimationFrame (id : nat) (snapshot : list Z).

Record Hook : Type := mkHook {
  bands : AudioBands;                (* bands.current *)
  error : option String.string;
  sessions : list Session;
  cleanup : option nat;              (* the session whose cleanup React holds *)
  frames : list (nat * nat);         (* pending animation frames: id, session *)
  nextFrame : nat                    (* the next id of requestAnimationFrame *)
}.

(** The component mounts with [enabled = false]: the effect has reset
    the bands and returned no cleanup. *)
Definition init : Hook :=
  {| bands := EMPTY_BANDS; error := None; sessions := []; cleanup := None;
     frames := []; nextFrame := 1 |}.

Definition setSession (st : Hook) (s : nat) (f : Session -> Session) : Hook :=
  {| bands := bands st; error := error st;
     sessions := list_update s f (sessions st);
     cleanup := cleanup st; frames := frames st; nextFrame := nextFrame st |}.

Definition setError (st : Hook) (e : option String.string) : Hook :=
  {| bands := bands st; error := e; sessions := sessions st;
     cleanup := cleanup st; frames := frames st; nextFrame := nextFrame st |}.

Definition setStage (g : Stage) (x : Session) : Session :=
  {| mode := mode x; cancelled := cancelled x;
     animationFrameId := animationFrameId x; stage := g |}.

Definition errorMessage (caught : option String.string) : String.string :=
  match caught with
  | Some message => message
  | None => "Audio capture failed."%string
  end.

(** [tick] of session [s]: one extraction cycle, then
    [animationFrameId = requestAnimationFrame(tick)]. *)
Definition runTick (s : nat) (snapshot : list Z) (st : Hook) : Hook :=
  let id := nextFrame st in
  {| bands := tick snapshot (bands st);
     error := error st;
     sessions := list_update s
       (fun x => {| mode := mode x; cancelled := cancelled x;
                    animationFrameId := id; stage := stage x |}) (sessions st);
     cleanup := cleanup st;
     frames := frames st ++ [(id, s)];
     nextFrame := S id |}.

(** The cleanup function of session [s]; stopping the tracks and
    closing the audio context leave the modelled state alone. *)
Definition teardown (s : nat) (st : Hook) : Hook :=
  match nth_error (sessions st) s with
  | None => st
  | Some x =>
      {| bands := bands st;
         error := error st;
         sessions := list_update s
           (fun x => {| mode := mode x; cancelled := true;
                        animationFrameId := animationFrameId x;
                        stage := stage x |}) (sessions st);
         cleanup := cleanup st;
         frames :=
           if (animationFrameId x =? 0)%nat then frames st
           else filter (fun f => negb (fst f =? animationFrameId x)%nat) (frames st);
         nextFrame := nextFrame st |}
  end.

(** The body of the effect. *)
Definition effectBody (m : AudioMode) (enabled : bool) (st : Hook) : Hook :=
  if negb enabled then
    {| bands := EMPTY_BANDS; error := error st; sessions := sessions st;
       cleanup := None; frames := frames st; nextFrame := nextFrame st |}
  else
    {| bands := bands st; error := error st;
       sessions := sessions st ++
         [{| mode := m; cancelled := false; animationFrameId := 0;
             stage := GettingStream |}];
       cleanup := Some (length (sessions st));
       frames := frames st; nextFrame := nextFrame st |}.

Definition step (st : Hook) (ev : Event) : Hook :=
  match ev with
  | Effect m enabled =>
      let st := match cleanup st with
                | Some s => teardown s st
                | None => st
                end in
      effectBody m enabled st
  | StreamSettled s o =>
      match nth_error (sessions st) s with
      | Some x =>
          match stage x, o with
          | GettingStream, Rejected caught =>
              setError (setSession st s (setStage Finished)) (Some (errorMessage caught))
          | GettingStream, Resolved =>
              if cancelled x then setSession st s (setStage Finished)
              else setError (setSession st s (setStage Resuming)) None
          | _, _ => st
          end
      | None => st
      end
  | ResumeSettled s o snapshot =>
      match nth_error (sessions st) s with
      | Some x =>
          match stage x, o with
          | Resuming, Rejected caught =>
              setError (setSession st s (setStage Finished)) (Some (errorMessage caught))
          | Resuming, Resolved =>
              runTick s snapshot (setSession st s (setStage Started))
          | _, _ => st
          end
      | None => st
      end
  | AnimationFrame id snapshot =>
      match find (fun f => (fst f =? id)%nat) (frames st) with
      | Some (_, s) =>
          runTick s snapshot
            {| bands := bands st; error := error st; sessions := sessions st;
               cleanup := cleanup st;
               frames := filter (fun f => negb (fst f =? id)%nat) (frames st);
               nextFrame := nextFrame st |}
      | None => st
      end
  end.

Definition run (st : Hook) (evs : list Event) : Hook := fold_left step evs st.

(** A session is capturing when its tick loop has started and it has
    not been torn down. *)
Definition capturing (st : Hook) : bool :=
  existsb (fun x => match stage x with
                    | Started => negb (cancelled x)
                    | _ => false
                    end) (sessions st).

(** Capture is stopped: some session has been torn down and none is
    capturing. *)
Definition stopped (st : Hook) : bool :=
  existsb cancelled (sessions st) && negb (capturing st).

(** The effect last ran with [enabled = false]. *)
Definition disabled (st : Hook) : bool :=
  match cleanup st with
  | None => true
  | Some _ => false
  end.

(** [audioContext.resume()] resolves for a session that was torn down
    while awaiting it; [init] does not look at [cancelled] again. *)
Definition lateResume (st : Hook) (ev : Event) : bool :=
  match ev with
  | ResumeSettled s Resolved _ =>
      match nth_error (sessions st) s with
      | Some x => cancelled x
      | None => false
      end
  | _ => false
  end.

(** No event of the run is a late resume. *)
Fixpoint noLateResume (st : Hook) (evs : list Event) : bool :=
  match evs with
  | [] => true
  | ev :: evs' => negb (lateResume st ev) && noLateResume (step st ev) evs'
  end.

End Capture.

(** ** Vocabulary of the specification *)

(** The bins of the effective range of a band: [start <= i <= end_] and
    [i] no later than the last valid bin. *)
Definition bandRange (frequencyBuffer : list Z) (start end_ : nat) : list nat :=
  seq start (Nat.min (S end_) (length frequencyBuffer) - start).

Definition zsum (l : list Z) : Z := fold_right Z.add 0%Z l.

Definition binValues (frequencyBuffer : list Z) (bins : list nat) : list Z :=
  map (fun i => nth i frequencyBuffer 0%Z) bins.

(** The spec's [averageBand]: the arithmetic mean of the values of the
    effective range, normalised by the largest magnitude; [0] on an
    empty range. *)
Definition bandMean (frequencyBuffer : list Z) (start end_ : nat) : R :=
  match bandRange frequencyBuffer start end_ with
  | [] => 0
  | bins => IZR (zsum (binValues frequencyBuffer bins)) / INR (length bins) / 255
  end.

Inductive Band : Type := Bass | Mid | Treble.

Definition level (k : Band) (b : AudioBands) : R :=
  match k with
  | Bass => bass b
  | Mid => mid b
  | Treble => treble b
  end.

(** The raw energy [tick] smooths towards, per band. *)
Definition bandTarget (k : Band) (frequencyBuffer : list Z) : R :=
  match k with
  | Bass => averageBand frequencyBuffer 0 14
  | Mid => averageBand frequencyBuffer 18 70
  | Treble => averageBand frequencyBuffer 90 180
  end.

(** The spec's [smooth]. *)
Definition smooth (previous target factor : R) : R :=
  previous + (target - previous) * factor.


(** ** Closed forms

    What the effectful definitions above compute, written as plain
    values; each is proved equal to a run of the code below. *)

(** The path call of sample [i], as [ridgeSample] issues it. *)
Definition ridgeOp (outerX valleyX seed base height : R) (i : nat) : Three.PathOp :=
  Three.LineTo
    (Three.lerp outerX valleyX (INR i / INR points))
    (base + height * (0.58 + pseudoRandom (seed + INR i * 17.1) * 0.9)
            * JS.Math_pow (1 - INR i / INR points) 0.8).

(** The point of sample [i]. *)
Definition ridgePoint (outerX valleyX seed base height : R) (i : nat) : R * R :=
  (Three.lerp outerX valleyX (INR i / INR points),
   base + height * (0.58 + pseudoRandom (seed + INR i * 17.1) * 0.9)
          * JS.Math_pow (1 - INR i / INR points) 0.8).

(** The whole path of a ridge, in closed form. *)
Definition ridgePath (side : Side) (seed base half height : R) : Three.Shape :=
  let outerX := match side with left => -14 | right => 14 end in
  let valleyX := match side with left => - half | right => half end in
  [Three.MoveTo outerX (-4.8); Three.LineTo outerX (base + 0.2)]
  ++ map (ridgeOp outerX valleyX seed base height) (seq 0 (S points))
  ++ [Three.LineTo valleyX (-4.8); Three.ClosePath].

(** The layer of a depth index, with its two shapes at [next] and
    [S next]. *)
Definition layerOf (index : nat) (next : ShapeRef) : RidgeLayer :=
  let depth := INR index / 4 in
  let colorMix := 0.2 + depth * 0.65 in
  {| z := -8.5 - INR index * 1.45;
     baseY := -1.26 + depth * 0.42;
     fill := Three.setRGB (0.04 + colorMix * 0.15) 0.02 (0.14 + colorMix * 0.16);
     stroke := Three.setRGB (0.1 + colorMix * 0.2) (0.5 + colorMix * 0.3) 0.95;
     valleyHalf := 3.4 - depth * 2.15;
     ridgeHeight := 2.45 - depth * 0.92;
     motion := 0.08 + INR index * 0.06;
     leftShape := next;
     rightShape := S next |}.

Arguments layerOf (index next)%_nat.

Fixpoint layerTable (indices : list nat) (next : ShapeRef) : list RidgeLayer :=
  match indices with
  | [] => []
  | index :: rest => layerOf index next :: layerTable rest (S (S next))
  end.

Fixpoint layerPaths (indices : list nat) : list Three.Shape :=
  match indices with
  | [] => []
  | index :: rest =>
      let l := layerOf index 0%nat in
      ridgePath left (30 + INR index * 12.3) (baseY l) (valleyHalf l) (ridgeHeight l)
      :: ridgePath right (70 + INR index * 13.7) (baseY l) (valleyHalf l) (ridgeHeight l)
      :: layerPaths rest
  end.

(** The offset [frameLayer] computes for a layer at an index. *)
Definition offsetY (t pulse : R) (layer : RidgeLayer) (index : nat) : R :=
  JS.Math_sin (t * (0.34 + motion layer) + INR index * 0.62) * motion layer
  + pulse * motion layer * 0.65.

(** ** Sample inputs *)

(** Bins 0-14 at full scale, silence everywhere else. *)
Definition bassOnly : list Z := repeat 255%Z 15 ++ repeat 0%Z 241.

(** A one-layer table with both groups mounted. *)
Definition frontLayer : RidgeLayer := layerOf 0 0.
Definition restingRefs : Refs := [Some (Three.mkGroup 0)].

Import Capture.

(** Connect on tab audio, capture two frames, then Stop. *)
Definition stopTrace : list Event :=
  [ Effect tab true;
    StreamSettled 0 Resolved;
    ResumeSettled 0 Resolved bassOnly;
    AnimationFrame 1 bassOnly;
    Effect tab false ].

(** A run in which the mode is switched while capturing and the new
    source is then refused. *)
Definition modeSwitchTrace : list Event :=
  [ Effect tab true;
    StreamSettled 0 Resolved;
    ResumeSettled 0 Resolved bassOnly;
    Effect mic true;
    StreamSettled 1 (Rejected (Some "Permission denied"%string)) ].

(** Stop is pressed while [audioContext.resume()] is awaited, and the
    promise resolves afterwards. *)
Definition lateResumeTrace : list Event :=
  [ Effect tab true;
    StreamSettled 0 Resolved;
    Effect tab false;
    ResumeSettled 0 Resolved bassOnly ].

(** ** The invariant of capture runs *)

(** Every pending frame belongs to a started session that has not been
    torn down, and carries the id that session remembers. *)
Definition framesOwned (st : Hook) : Prop :=
  forall id s, In (id, s) (frames st) ->
    exists x, nth_error (sessions st) s = Some x /\
              animationFrameId x = id /\ cancelled x = false /\
              stage x = Started /\ id <> 0%nat.

(** Every session but the one whose cleanup React holds has been torn
    down. *)
Definition othersCancelled (st : Hook) : Prop :=
  forall s x, nth_error (sessions st) s = Some x ->
    cleanup st <> Some s -> cancelled x = true.

Record Inv (st : Hook) : Prop := mkInv {
  inv_frames : framesOwned st;
  inv_others : othersCancelled st;
  inv_idle : cleanup st = None -> bands st = EMPTY_BANDS;
  inv_next : nextFrame st <> 0%nat
}.

(** ** Further vocabulary *)

(** Every band lies in [[0, 1]]. *)
Definition unitBands (b : AudioBands) : Prop :=
  0 <= bass b <= 1 /\ 0 <= mid b <= 1 /\ 0 <= treble b <= 1.

(** The snapshot an event hands to [tick], if any, holds bytes. *)
Definition validEvent (ev : Event) : Prop :=
  match ev with
  | ResumeSettled _ _ snapshot => valid_snapshot snapshot
  | AnimationFrame _ snapshot => valid_snapshot snapshot
  | _ => True
  end.

(** Two buffers hold the same values on the bins [start .. end_]. *)
Definition agreeOn (b1 b2 : list Z) (start end_ : nat) : Prop :=
  forall i, (start <= i <= end_)%nat -> nth i b1 0%Z = nth i b2 0%Z.

(** Half-scale on every bin. *)
Definition halfScale : list Z := repeat 128%Z 256.

(** Reflection of an outline point in the axis of the valley. *)
Definition mirror (p : R * R) : R * R := (- fst p, snd p).

(** The outer and the valley edge of a side, as [createRidgeShape]
    names them. *)
Definition outerEdge (side : Side) : R :=
  match side with left => -14 | right => 14 end.

Definition valleyEdge (side : Side) (half : R) : R :=
  match side with left => - half | right => half end.

(** The outline a construction yields. *)
Definition builtOutline (side : Side) (seed base half height : R) (w : World)
  : list (R * R) :=
  let (shape, w') := createRidgeShape side seed base half height w in
  outline (shapeAt w' shape).

Definition emptyWorld : World := mkWorld 0 EMPTY_BANDS [].

(** The path a construction yields. *)
Definition builtShape (side : Side) (seed base half height : R) (w : World)
  : Three.Shape :=
  let (shape, w') := createRidgeShape side seed base half height w in
  shapeAt w' shape.

(** A colour channel that needs no clamping. *)
Definition validColor (c : Three.Color) : Prop :=
  0 <= Three.red c <= 1 /\ 0 <= Three.green c <= 1 /\ 0 <= Three.blue c <= 1.

(** ** The invariant of all capture runs *)

(** Every pending frame belongs to a started session and carries the id
    that session remembers, an id [requestAnimationFrame] has handed
    out. *)
Definition framesShaped (st : Hook) : Prop :=
  forall id s, In (id, s) (frames st) ->
    exists x, nth_error (sessions st) s = Some x /\
              animationFrameId x = id /\ stage x = Started /\
              (0 < id < nextFrame st)%nat.

Record Sound (st : Hook) : Prop := mkSound {
  sound_frames : framesShaped st;
  sound_ids : NoDup (map fst (frames st));
  sound_owners : NoDup (map snd (frames st));
  sound_others : othersCancelled st;
  sound_cleanup : forall s, cleanup st = Some s -> (s < length (sessions st))%nat;
  sound_next : (0 < nextFrame st)%nat
}.

(** A session torn down before its media stream arrived, or whose
    [init] is over, with no frame of its own pending. *)
Definition quiet (st : Hook) (s : nat) : Prop :=
  (exists x, nth_error (sessions st) s = Some x /\ cancelled x = true /\
             (stage x = GettingStream \/ stage x = Finished)) /\
  (forall id, ~ In (id, s) (frames st)).

(** Stop is pressed while the source picker is still open. *)
Definition stoppedInPicker : Hook := run init [Effect tab true; Effect tab false].

(** ** The camera and the grid *)

Record Vector3 : Type := mkVector3 { v_x : R; v_y : R; v_z : R }.

(** What the frame callback of [CameraDrift] keeps between frames: its
    two refs, the position of the camera and the point it looks at. *)
Record CameraRig : Type := mkCameraRig {
  targetPosition : Vector3;
  lookTarget : Vector3;
  cameraPosition : Vector3;
  lookingAt : Vector3
}.

(** The refs as created, and the camera as the [Canvas] places it. *)
Definition initialRig : CameraRig :=
  {| targetPosition := mkVector3 0 3 8;
     lookTarget := mkVector3 0 0.9 (-11);
     cameraPosition := mkVector3 0 3 8;
     lookingAt := mkVector3 0 0 0 |}.

(** The frame callback of [CameraDrift].  [Vector3.lerp] belongs to
    three.js and is a parameter [vlerp] here. *)
Definition cameraDrift (vlerp : Vector3 -> Vector3 -> R -> Vector3)
    (w : World) (rig : CameraRig) : CameraRig :=
  let t := clock w in
  let bass_ := bass (bandsRef w) in
  let treble_ := treble (bandsRef w) in
  let targetPosition_ :=
    mkVector3 (JS.Math_sin (t * 0.18) * 0.35 + treble_ * 0.22)
              (3 + JS.Math_sin (t * 0.36) * 0.12 + bass_ * 0.08)
              (8 + JS.Math_sin (t * 0.25) * 0.2) in
  let lookTarget_ :=
    mkVector3 (JS.Math_sin (t * 0.12) * 0.45) (0.9 + bass_ * 0.05) (-11) in
  {| targetPosition := targetPosition_;
     lookTarget := lookTarget_;
     cameraPosition := vlerp (cameraPosition rig) targetPosition_ 0.05;
     lookingAt := lookTarget_ |}.

(** One frame per world, in order. *)
Definition cameraFrames (vlerp : Vector3 -> Vector3 -> R -> Vector3)
    (ws : list World) (rig : CameraRig) : CameraRig :=
  fold_left (fun r w => cameraDrift vlerp w r) ws rig.

(** [c] lies between [a] and [b]. *)
Definition between (a b c : R) : Prop := Rmin a b <= c <= Rmax a b.

(** What is asked of [Vector3.lerp] at the factor the callback uses:
    every coordinate of the result lies between those of its ends. *)
Definition lerpsBetween (vlerp : Vector3 -> Vector3 -> R -> Vector3) : Prop :=
  forall p q : Vector3,
    between (v_x p) (v_x q) (v_x (vlerp p q 0.05)) /\
    between (v_y p) (v_y q) (v_y (vlerp p q 0.05)) /\
    between (v_z p) (v_z q) (v_z (vlerp p q 0.05)).

(** Coordinate-wise linear interpolation. *)
Definition linearVlerp (p q : Vector3) (alpha : R) : Vector3 :=
  mkVector3 (Three.lerp (v_x p) (v_x q) alpha)
            (Three.lerp (v_y p) (v_y q) alpha)
            (Three.lerp (v_z p) (v_z q) alpha).

(** The region the camera target moves in. *)
Definition inDriftBox (p : Vector3) : Prop :=
  -0.35 <= v_x p <= 0.57 /\ 2.88 <= v_y p <= 3.2 /\ 7.8 <= v_z p <= 8.2.

Module GLSL.

(** The built-ins [clamp] and [smoothstep], as the language defines
    them for [edge0 < edge1]. *)
Definition clamp (x lo hi : R) : R := Rmin (Rmax x lo) hi.

Definition smoothstep (edge0 edge1 x : R) : R :=
  let t := clamp ((x - edge0) / (edge1 - edge0)) 0 1 in
  t * t * (3 - 2 * t).

End GLSL.

(** The vertex shader of [ValleyGrid], up to the projection: the
    displaced vertex and the varying [vPath]. *)
Definition gridVertex (uv_x : R) (position : Vector3) (time bass_ : R) : Vector3 * R :=
  let sideRise := GLSL.smoothstep 0.8 1.0 (Rabs (uv_x - 0.5) * 2.0) in
  let y1 := v_y position + sideRise * 1.25 in
  let y2 := y1 + JS.Math_sin ((v_z position + time * 7.0) * 0.45) * bass_ * 0.45 in
  let vPath := 1.0 - GLSL.smoothstep 0.08 0.42 (Rabs (uv_x - 0.5)) in
  (mkVector3 (v_x position) y2 (v_z position), vPath).

(** Which slots hold a mounted group. *)
Definition mounted (refs : Refs) : list bool :=
  map (fun g => match g with Some _ => true | None => false end) refs.

(** ** Division, and a terrain of any length *)

(** What a JavaScript division of two finite numbers yields: a finite
    number, [NaN] for [0 / 0], an infinity for any other division by
    zero. *)
Inductive Quotient : Type :=
| Finite (q : R)
| NotANumber
| Infinite.

Definition divide (x y : R) : Quotient :=
  if Req_dec_T y 0 then
    if Req_dec_T x 0 then NotANumber else Infinite
  else Finite (x / y).



(** ** The placement of the grid mesh *)

(** The rotation a mesh [rotation={[theta, 0, 0]}] applies to its
    vertices. *)
Definition rotateX (theta : R) (p : Vector3) : Vector3 :=
  mkVector3 (v_x p)
            (v_y p * cos theta - v_z p * sin theta)
            (v_y p * sin theta + v_z p * cos theta).

(** The grid mesh: [rotation={[-Math.PI / 2, 0, 0]}] and
    [position={[0, -1.02, -1]}]. *)
Definition gridToWorld (p : Vector3) : Vector3 :=
  let r := rotateX (- PI / 2) p in
  mkVector3 (v_x r + 0) (v_y r + -1.02) (v_z r + -1).

(** * Band extraction: proofs *)

Section AverageBand.

Variable frequencyBuffer : list Z.

Lemma bandRange_In (start end_ i : nat) :
  In i (bandRange frequencyBuffer start end_) <->
  (start <= i <= end_ /\ i < length frequencyBuffer)%nat.
Proof.
  unfold bandRange. rewrite in_seq. lia.
Qed.

Lemma bandRange_empty (start end_ : nat) :
  (end_ < start \/ length frequencyBuffer <= start)%nat ->
  bandRange frequencyBuffer start end_ = [].
Proof.
  intros H. unfold bandRange.
  replace (Nat.min (S end_) (length frequencyBuffer) - start)%nat with 0%nat by lia.
  reflexivity.
Qed.

(** The loop adds up the effective range, whatever fuel remains beyond
    the bins still ahead. *)
Lemma averageBand_loop_spec (fuel end_ : nat) :
  forall (i : nat) (sum count : Z),
    (length frequencyBuffer - i <= fuel)%nat ->
    averageBand_loop fuel frequencyBuffer end_ i sum count =
    ((sum + zsum (binValues frequencyBuffer (bandRange frequencyBuffer i end_)))%Z,
     (count + Z.of_nat (length (bandRange frequencyBuffer i end_)))%Z).
Proof.
  induction fuel as [|fuel IH]; intros i sum count Hfuel; simpl.
  - rewrite bandRange_empty by lia. simpl. f_equal; lia.
  - destruct (Nat.leb_spec i end_) as [Hle|Hgt];
      destruct (Nat.ltb_spec i (length frequencyBuffer)) as [Hlt|Hge]; simpl.
    + rewrite IH by lia. unfold bandRange.
      replace (Nat.min (S end_) (length frequencyBuffer) - i)%nat
        with (S (Nat.min (S end_) (length frequencyBuffer) - S i)) by lia.
      simpl. rewrite length_seq. f_equal; lia.
    + rewrite bandRange_empty by lia. simpl. f_equal; lia.
    + rewrite bandRange_empty by lia. simpl. f_equal; lia.
    + rewrite bandRange_empty by lia. simpl. f_equal; lia.
Qed.

Lemma averageBand_unfold (start end_ : nat) :
  let bins := bandRange frequencyBuffer start end_ in
  averageBand frequencyBuffer start end_ =
  if (0 <? Z.of_nat (length bins))%Z
  then IZR (zsum (binValues frequencyBuffer bins)) / (IZR (Z.of_nat (length bins)) * 255)
  else 0.
Proof.
  unfold averageBand. rewrite averageBand_loop_spec by lia. reflexivity.
Qed.

Lemma averageBand_bandMean (start end_ : nat) :
  averageBand frequencyBuffer start end_ = bandMean frequencyBuffer start end_.
Proof.
  rewrite averageBand_unfold. unfold bandMean.
  destruct (bandRange frequencyBuffer start end_) as [|b bins] eqn:E.
  - reflexivity.
  - replace (0 <? Z.of_nat (length (b :: bins)))%Z with true
      by (symmetry; apply Z.ltb_lt; simpl; lia).
    rewrite <- INR_IZR_INZ.
    assert (0 < INR (length (b :: bins))) by (apply lt_0_INR; simpl; lia).
    field. lra.
Qed.

Lemma zsum_bounds (bins : list nat) :
  valid_snapshot frequencyBuffer ->
  (forall i, In i bins -> (i < length frequencyBuffer)%nat) ->
  (0 <= zsum (binValues frequencyBuffer bins) <= 255 * Z.of_nat (length bins))%Z.
Proof.
  intros Hv. induction bins as [|i bins IH]; intros Hin; simpl.
  - lia.
  - assert (0 <= nth i frequencyBuffer 0 <= 255)%Z as Hi.
    { unfold valid_snapshot in Hv. rewrite Forall_forall in Hv.
      apply Hv, nth_In, Hin. now left. }
    specialize (IH (fun j Hj => Hin j (or_intror Hj))). lia.
Qed.

Lemma zsum_const (c : Z) (bins : list nat) :
  (forall i, In i bins -> nth i frequencyBuffer 0%Z = c) ->
  zsum (binValues frequencyBuffer bins) = (c * Z.of_nat (length bins))%Z.
Proof.
  induction bins as [|i bins IH]; intros Hc; simpl.
  - lia.
  - rewrite (Hc i) by now left.
    rewrite IH by (intros j Hj; apply Hc; now right). lia.
Qed.

Lemma averageBand_range (start end_ : nat) :
  valid_snapshot frequencyBuffer ->
  0 <= averageBand frequencyBuffer start end_ <= 1.
Proof.
  intros Hv. rewrite averageBand_unfold. cbv zeta.
  set (bins := bandRange frequencyBuffer start end_).
  destruct (Z.ltb_spec 0 (Z.of_nat (length bins))) as [Hpos|Hzero]; [|lra].
  destruct (zsum_bounds bins Hv) as [Hlo Hhi].
  { intros i Hi. apply bandRange_In in Hi. lia. }
  apply IZR_le in Hlo, Hhi. rewrite mult_IZR in Hhi.
  apply IZR_lt in Hpos.
  set (s := IZR (zsum (binValues frequencyBuffer bins))) in *.
  set (c := IZR (Z.of_nat (length bins))) in *.
  assert (0 < c * 255) as Hd by lra.
  pose proof (Rinv_0_lt_compat _ Hd) as Hinv.
  pose proof (Rinv_r (c * 255) ltac:(lra)) as Hone.
  unfold Rdiv. split; nra.
Qed.

(** A band whose bins all hold [c] averages to [c / 255]. *)
Lemma averageBand_const (start end_ : nat) (c : Z) :
  (start <= end_)%nat -> (start < length frequencyBuffer)%nat ->
  (forall i, (start <= i <= end_)%nat -> nth i frequencyBuffer 0%Z = c) ->
  averageBand frequencyBuffer start end_ = IZR c / 255.
Proof.
  intros Hse Hsl Hc. rewrite averageBand_unfold. cbv zeta.
  set (bins := bandRange frequencyBuffer start end_).
  assert (0 < length bins)%nat as Hlen.
  { unfold bins, bandRange. rewrite length_seq. lia. }
  replace (0 <? Z.of_nat (length bins))%Z with true
    by (symmetry; apply Z.ltb_lt; lia).
  rewrite (zsum_const c).
  - rewrite mult_IZR.
    assert (0 < IZR (Z.of_nat (length bins))) by (apply IZR_lt; lia).
    field. lra.
  - intros i Hi. apply bandRange_In in Hi. apply Hc. lia.
Qed.

End AverageBand.

(** C2.  For every snapshot with magnitudes in [[0, 255]] and every bin
    range, [averageBand] is the arithmetic mean of the values over the
    bins [i] with [start <= i <= end_] that exist in the snapshot,
    divided by 255; it lies in [[0, 1]]; and it is [0] when the effective
    range is empty ([start] past the last valid bin, or [start > end_]). *)
Theorem averageBand_mean_in_unit_interval :
  forall (frequencyBuffer : list Z) (start end_ : nat),
    valid_snapshot frequencyBuffer ->
    (forall i, In i (bandRange frequencyBuffer start end_) <->
               (start <= i <= end_ /\ i <= length frequencyBuffer - 1
                /\ frequencyBuffer <> [])%nat) /\
    averageBand frequencyBuffer start end_ = bandMean frequencyBuffer start end_ /\
    0 <= averageBand frequencyBuffer start end_ <= 1 /\
    ((length frequencyBuffer <= start \/ end_ < start)%nat ->
     averageBand frequencyBuffer start end_ = 0).
Proof.
  intros buf start end_ Hv. split; [|split; [|split]].
  - intros i. rewrite bandRange_In. split.
    + intros [H1 H2]. repeat split; try lia.
      intros ->. simpl in H2. lia.
    + intros (H1 & H2 & H3). split; [lia|].
      destruct buf; [congruence|]. simpl in *. lia.
  - apply averageBand_bandMean.
  - apply (averageBand_range buf start end_ Hv).
  - intros He. rewrite averageBand_bandMean. unfold bandMean.
    rewrite bandRange_empty by lia. reflexivity.
Qed.

Lemma averageBand_mean_in_unit_interval_witness :
  valid_snapshot [255; 0; 128]%Z /\
  0 <= averageBand [255; 0; 128]%Z 1 5 <= 1.
Proof.
  assert (Hv : valid_snapshot [255; 0; 128]%Z).
  { unfold valid_snapshot. repeat constructor; lia. }
  split; [exact Hv|].
  exact (proj1 (proj2 (proj2
    (averageBand_mean_in_unit_interval [255; 0; 128]%Z 1%nat 5%nat Hv)))).
Defined.

(** The loop on a three-bin buffer: bins 1 and 2 are read, bin 3 is
    past the end. *)
Example averageBand_loop_run :
  averageBand_loop 4 [255; 0; 128]%Z 5 1 0 0 = (128, 2)%Z.
Proof. reflexivity. Qed.

(** The bass band of [bassOnly]: fifteen bins at 255. *)
Example averageBand_loop_bassOnly :
  averageBand_loop (S (length bassOnly)) bassOnly 14 0 0 0 = (3825, 15)%Z.
Proof. vm_compute. reflexivity. Qed.

Example averageBand_run : averageBand [255; 0; 128]%Z 1 5 = 128 / 510.
Proof.
  unfold averageBand. simpl. lra.
Qed.

(** * Smoothing: proofs *)

(** The interpolation as a weighted sum of its end points, the form
    three.js gives it. *)
Lemma lerp_weighted (x y t : R) : Three.lerp x y t = (1 - t) * x + t * y.
Proof. unfold Three.lerp. ring. Qed.

Lemma tick_level (k : Band) (frequencyBuffer : list Z) (b : AudioBands) :
  level k (tick frequencyBuffer b) =
  smooth (level k b) (bandTarget k frequencyBuffer) 0.2.
Proof.
  destruct k; reflexivity.
Qed.

(** The signed distance to a constant target shrinks by [1 - 0.2] per
    cycle. *)
Lemma ticks_level (k : Band) (v : R) (snapshots : list (list Z)) :
  Forall (fun s => bandTarget k s = v) snapshots ->
  forall b0 : AudioBands,
    level k (ticks snapshots b0) - v =
    (level k b0 - v) * (1 - 0.2) ^ length snapshots.
Proof.
  induction 1 as [|s snapshots Hs _ IH]; intros b0.
  - simpl. lra.
  - change (ticks (s :: snapshots) b0) with (ticks snapshots (tick s b0)).
    rewrite IH, tick_level, Hs. unfold smooth. simpl. lra.
Qed.

Lemma ticks_level_abs (k : Band) (v : R) (snapshots : list (list Z)) (b0 : AudioBands) :
  Forall (fun s => bandTarget k s = v) snapshots ->
  Rabs (level k (ticks snapshots b0) - v) =
  Rabs (level k b0 - v) * (1 - 0.2) ^ length snapshots.
Proof.
  intros H. rewrite (ticks_level k v snapshots H), Rabs_mult.
  f_equal. apply Rabs_pos_eq, pow_le. lra.
Qed.

(** With the same snapshot over and over, the level tends to its
    target. *)
Lemma ticks_level_limit (k : Band) (s : list Z) (b0 : AudioBands) :
  Un_cv (fun n => level k (ticks (repeat s n) b0)) (bandTarget k s).
Proof.
  intros eps Heps.
  set (v := bandTarget k s).
  assert (Hall : forall n, Forall (fun s' => bandTarget k s' = v) (repeat s n)).
  { intros n. apply Forall_forall. intros s' Hin.
    apply repeat_spec in Hin. now subst. }
  destruct (Req_dec (level k b0) v) as [Heq|Hneq].
  - exists 0%nat. intros n _. unfold R_dist.
    rewrite (ticks_level k v _ (Hall n)), Heq.
    replace ((v - v) * (1 - 0.2) ^ length (repeat s n)) with 0 by ring.
    rewrite Rabs_R0. exact Heps.
  - assert (0 < Rabs (level k b0 - v)) as Hd by (apply Rabs_pos_lt; lra).
    destruct (pow_lt_1_zero (1 - 0.2)) with (y := eps / Rabs (level k b0 - v))
      as [N HN].
    + apply Rabs_def1; lra.
    + apply Rdiv_lt_0_compat; assumption.
    + exists N. intros n Hn. unfold R_dist.
      rewrite (ticks_level k v _ (Hall n)), repeat_length, Rabs_mult.
      specialize (HN n Hn).
      apply Rmult_lt_compat_l with (r := Rabs (level k b0 - v)) in HN; [|exact Hd].
      replace (Rabs (level k b0 - v) * (eps / Rabs (level k b0 - v))) with eps in HN
        by (field; lra).
      exact HN.
Qed.

(** C3.  Each band is smoothed on its own by
    [previous + (target - previous) * 0.2]; with a constant target [v]
    over [N] cycles the distance to [v] is exactly
    [|smoothed_0 - v| * (1 - 0.2)^N], it never grows from one cycle to
    the next, and the smoothed value tends to [v]. *)
Theorem smoothing_step_and_convergence :
  forall (k : Band) (snapshots : list (list Z)) (b0 : AudioBands) (v : R),
    Forall (fun s => bandTarget k s = v) snapshots ->
    (forall s b, level k (tick s b) = level k b + (bandTarget k s - level k b) * 0.2) /\
    Rabs (level k (ticks snapshots b0) - v) =
      Rabs (level k b0 - v) * (1 - 0.2) ^ length snapshots /\
    (forall s, bandTarget k s = v ->
       Rabs (level k (ticks (snapshots ++ [s]) b0) - v) <=
       Rabs (level k (ticks snapshots b0) - v)) /\
    (forall s, bandTarget k s = v ->
       Un_cv (fun n => level k (ticks (repeat s n) b0)) v).
Proof.
  intros k snapshots b0 v Hall. split; [|split; [|split]].
  - intros s b. apply tick_level.
  - apply ticks_level_abs, Hall.
  - intros s Hs.
    assert (Hall' : Forall (fun s' => bandTarget k s' = v) (snapshots ++ [s])).
    { apply Forall_app. split; [exact Hall|]. now constructor. }
    rewrite (ticks_level_abs k v _ b0 Hall'), (ticks_level_abs k v _ b0 Hall).
    rewrite length_app, Nat.add_comm. simpl.
    pose proof (Rabs_pos (level k b0 - v)) as Ha.
    assert (0 <= (1 - 0.2) ^ length snapshots) as Hp by (apply pow_le; lra).
    nra.
  - intros s <-. apply ticks_level_limit.
Qed.

Lemma smoothing_step_and_convergence_witness :
  Forall (fun s => bandTarget Bass s = 1) [[255%Z]; [255%Z]] /\
  Rabs (level Bass (ticks [[255%Z]; [255%Z]] EMPTY_BANDS) - 1) =
  Rabs (level Bass EMPTY_BANDS - 1) * (1 - 0.2) ^ 2.
Proof.
  assert (H1 : bandTarget Bass [255%Z] = 1).
  { unfold bandTarget, averageBand. simpl. lra. }
  assert (H : Forall (fun s => bandTarget Bass s = 1) [[255%Z]; [255%Z]]).
  { repeat constructor; exact H1. }
  split; [exact H|].
  exact (proj1 (proj2
    (smoothing_step_and_convergence Bass [[255%Z]; [255%Z]] EMPTY_BANDS 1 H))).
Defined.

(** * The end-to-end scenario *)

Section Scenario.

Variable snapshot : list Z.
Hypothesis snapshot_length : length snapshot = frequencyBinCount.
Hypothesis bass_bins : forall i, (i <= 14)%nat -> nth i snapshot 0%Z = 255%Z.
Hypothesis mid_bins : forall i, (18 <= i <= 70)%nat -> nth i snapshot 0%Z = 0%Z.
Hypothesis treble_bins : forall i, (90 <= i <= 180)%nat -> nth i snapshot 0%Z = 0%Z.

Lemma scenario_length : length snapshot = 256%nat.
Proof. rewrite snapshot_length. reflexivity. Qed.

Lemma scenario_targets :
  bandTarget Bass snapshot = 1 /\
  bandTarget Mid snapshot = 0 /\
  bandTarget Treble snapshot = 0.
Proof.
  pose proof scenario_length as Hlen. unfold bandTarget. repeat split.
  - rewrite (averageBand_const snapshot 0 14 255); [lra|lia|lia|].
    intros i Hi. apply bass_bins. lia.
  - rewrite (averageBand_const snapshot 18 70 0); [lra|lia|lia|].
    intros i Hi. apply mid_bins. lia.
  - rewrite (averageBand_const snapshot 90 180 0); [lra|lia|lia|].
    intros i Hi. apply treble_bins. lia.
Qed.

Lemma scenario_one_cycle :
  tick snapshot EMPTY_BANDS = {| bass := 0.2; mid := 0; treble := 0 |}.
Proof.
  destruct scenario_targets as (Hb & Hm & Ht). unfold bandTarget in *.
  unfold tick, set_bass, set_mid, set_treble, Three.lerp. simpl.
  rewrite Hb, Hm, Ht. f_equal; lra.
Qed.

Lemma scenario_cycles (k : Band) (n : nat) :
  level k (ticks (repeat snapshot n) EMPTY_BANDS) =
  bandTarget k snapshot * (1 - (1 - 0.2) ^ n).
Proof.
  assert (Hall : Forall (fun s => bandTarget k s = bandTarget k snapshot)
                   (repeat snapshot n)).
  { apply Forall_forall. intros s Hin. apply repeat_spec in Hin. now subst. }
  pose proof (ticks_level k _ _ Hall EMPTY_BANDS) as H.
  rewrite repeat_length in H.
  replace (level k EMPTY_BANDS) with 0 in H by (destruct k; reflexivity).
  lra.
Qed.

End Scenario.

(** C7.  From all-zero bands, a snapshot with bins 0-14 at 255 and bins
    18-70 and 90-180 at 0 gives [bass = 0.2], [mid = 0], [treble = 0]
    after one cycle, and [bass = 1 - 0.8^10], within [0.0001] of
    [0.8926], after ten identical cycles. *)
Theorem end_to_end_bass_scenario :
  forall snapshot : list Z,
    length snapshot = frequencyBinCount ->
    (forall i, (i <= 14)%nat -> nth i snapshot 0%Z = 255%Z) ->
    (forall i, (18 <= i <= 70)%nat -> nth i snapshot 0%Z = 0%Z) ->
    (forall i, (90 <= i <= 180)%nat -> nth i snapshot 0%Z = 0%Z) ->
    tick snapshot EMPTY_BANDS = {| bass := 0.2; mid := 0; treble := 0 |} /\
    bass (ticks (repeat snapshot 10) EMPTY_BANDS) = 1 - 0.8 ^ 10 /\
    Rabs (bass (ticks (repeat snapshot 10) EMPTY_BANDS) - 0.8926) < 0.0001 /\
    mid (ticks (repeat snapshot 10) EMPTY_BANDS) = 0 /\
    treble (ticks (repeat snapshot 10) EMPTY_BANDS) = 0.
Proof.
  intros snapshot Hlen Hb Hm Ht.
  destruct (scenario_targets snapshot Hlen Hb Hm Ht) as (Tb & Tm & Tt).
  pose proof (scenario_cycles snapshot Bass 10) as Cb.
  pose proof (scenario_cycles snapshot Mid 10) as Cm.
  pose proof (scenario_cycles snapshot Treble 10) as Ct.
  rewrite Tb in Cb. rewrite Tm in Cm. rewrite Tt in Ct.
  cbn [level] in Cb, Cm, Ct.
  split; [apply scenario_one_cycle; assumption|].
  split; [rewrite Cb; lra|].
  split; [rewrite Cb; apply Rabs_def1; lra|].
  split; [rewrite Cm; lra | rewrite Ct; lra].
Qed.

Lemma end_to_end_bass_scenario_witness :
  length bassOnly = frequencyBinCount /\
  tick bassOnly EMPTY_BANDS = {| bass := 0.2; mid := 0; treble := 0 |} /\
  bass (ticks (repeat bassOnly 10) EMPTY_BANDS) = 1 - 0.8 ^ 10.
Proof.
  assert (Hlen : length bassOnly = frequencyBinCount) by reflexivity.
  assert (Hz : forall i, (15 <= i)%nat -> nth i bassOnly 0%Z = 0%Z).
  { intros i Hi. unfold bassOnly. rewrite app_nth2; rewrite repeat_length; [|lia].
    apply nth_repeat. }
  assert (Hb : forall i, (i <= 14)%nat -> nth i bassOnly 0%Z = 255%Z).
  { intros i Hi. do 15 (destruct i as [|i]; [reflexivity|]). lia. }
  assert (Hm : forall i, (18 <= i <= 70)%nat -> nth i bassOnly 0%Z = 0%Z).
  { intros i Hi. apply Hz. lia. }
  assert (Ht : forall i, (90 <= i <= 180)%nat -> nth i bassOnly 0%Z = 0%Z).
  { intros i Hi. apply Hz. lia. }
  split; [exact Hlen|].
  pose proof (end_to_end_bass_scenario bassOnly Hlen Hb Hm Ht) as H.
  split; [exact (proj1 H) | exact (proj1 (proj2 H))].
Defined.

(** * Ridge outlines: proofs *)

Lemma list_update_last {A : Type} (f : A -> A) (l : list A) (a : A) :
  list_update (length l) f (l ++ [a]) = l ++ [f a].
Proof.
  induction l as [|b l IH]; simpl; [reflexivity|]. now rewrite IH.
Qed.

Lemma pathCall_last (w : World) (hs : list Three.Shape) (p : Three.Shape)
    (op : Three.PathOp) :
  pathCall (length hs) op (withShapes w (hs ++ [p])) =
  (tt, withShapes w (hs ++ [p ++ [op]])).
Proof.
  unfold pathCall, withShapes. simpl. now rewrite list_update_last.
Qed.

(** The sampling loop appends one call per index up to [points], and
    extra fuel changes nothing. *)
Lemma for_loop_ridge (w : World) (hs : list Three.Shape) (g : nat -> Three.PathOp)
    (fuel : nat) :
  forall (i : nat) (p : Three.Shape),
    (S points - i <= fuel)%nat ->
    for_loop fuel i (fun i => i <=? points)%nat (fun i => pathCall (length hs) (g i))
      (withShapes w (hs ++ [p])) =
    (tt, withShapes w (hs ++ [p ++ map g (seq i (S points - i))])).
Proof.
  induction fuel as [|fuel IH]; intros i p Hfuel.
  - replace (S points - i)%nat with 0%nat by lia. simpl. now rewrite app_nil_r.
  - simpl for_loop. destruct (Nat.leb_spec i points) as [Hle|Hgt].
    + unfold bind. rewrite pathCall_last, IH by lia.
      replace (S points - i)%nat with (S (S points - S i)) by lia.
      simpl. now rewrite <- app_assoc.
    + replace (S points - i)%nat with 0%nat by lia. simpl. now rewrite app_nil_r.
Qed.

Lemma createRidgeShape_run (side : Side) (seed base half height : R) (w : World) :
  createRidgeShape side seed base half height w =
  (length (shapes w),
   withShapes w (shapes w ++ [ridgePath side seed base half height])).
Proof.
  unfold createRidgeShape, newShape, moveTo, lineTo, closePath, ret.
  cbv zeta. unfold bind at 1.
  unfold bind at 1. rewrite pathCall_last.
  unfold bind at 1. rewrite pathCall_last.
  unfold bind at 1. unfold ridgeSample, lineTo.
  rewrite (for_loop_ridge w (shapes w)
             (ridgeOp (match side with left => -14 | right => 14 end)
                      (match side with left => - half | right => half end)
                      seed base height)) by lia.
  unfold bind at 1. rewrite pathCall_last.
  unfold bind at 1. rewrite pathCall_last.
  unfold ridgePath. cbv zeta. rewrite Nat.sub_0_r.
  repeat rewrite <- app_assoc. reflexivity.
Qed.

Lemma shapeAt_created (w : World) (p : Three.Shape) :
  shapeAt (withShapes w (shapes w ++ [p])) (length (shapes w)) = p.
Proof.
  unfold shapeAt, withShapes. simpl. apply nth_middle.
Qed.

Lemma outline_app (p q : Three.Shape) : outline (p ++ q) = outline p ++ outline q.
Proof. apply flat_map_app. Qed.

Lemma outline_ridgeOps (outerX valleyX seed base height : R) (l : list nat) :
  outline (map (ridgeOp outerX valleyX seed base height) l) =
  map (ridgePoint outerX valleyX seed base height) l.
Proof.
  induction l as [|i l IH]; [reflexivity|].
  change (outline (map (ridgeOp outerX valleyX seed base height) (i :: l)))
    with (ridgePoint outerX valleyX seed base height i
          :: outline (map (ridgeOp outerX valleyX seed base height) l)).
  now rewrite IH.
Qed.

Lemma outline_ridgePath (side : Side) (seed base half height : R) :
  let outerX := match side with left => -14 | right => 14 end in
  let valleyX := match side with left => - half | right => half end in
  outline (ridgePath side seed base half height) =
  [(outerX, -4.8); (outerX, base + 0.2)]
  ++ map (ridgePoint outerX valleyX seed base height) (seq 0 (S points))
  ++ [(valleyX, -4.8)].
Proof.
  intros outerX valleyX. unfold ridgePath. fold outerX valleyX.
  rewrite !outline_app, outline_ridgeOps. reflexivity.
Qed.

Lemma pseudoRandom_range (seed : R) : 0 <= pseudoRandom seed < 1.
Proof.
  unfold pseudoRandom, JS.Math_floor. cbv zeta.
  set (x := JS.Math_sin (seed * 12.9898) * 43758.5453123).
  destruct (base_Int_part x). lra.
Qed.

Lemma sample_fraction (i : nat) :
  (i <= points)%nat -> 0 <= INR i / INR points <= 1.
Proof.
  intros Hi. apply le_INR in Hi. pose proof (pos_INR i) as Hp.
  unfold points in *. simpl INR in *. lra.
Qed.

(** C1.  The outline of a ridge depends on the explicit parameters only:
    whatever the clock, the bands and the shapes allocated before, two
    constructions with the same side, seed, baseline, valley half-width
    and height yield the same path and the same outline points; and a
    construction changes nothing but the fresh shape it allocates. *)
Theorem createRidgeShape_deterministic :
  forall (side : Side) (seed base half height : R) (w1 w2 : World),
    let (s1, w1') := createRidgeShape side seed base half height w1 in
    let (s2, w2') := createRidgeShape side seed base half height w2 in
    shapeAt w1' s1 = shapeAt w2' s2 /\
    outline (shapeAt w1' s1) = outline (shapeAt w2' s2) /\
    clock w1' = clock w1 /\
    bandsRef w1' = bandsRef w1 /\
    firstn (length (shapes w1)) (shapes w1') = shapes w1.
Proof.
  intros side seed base half height w1 w2.
  rewrite !createRidgeShape_run, !shapeAt_created.
  repeat split. simpl.
  rewrite firstn_app, Nat.sub_diag, firstn_all. simpl. apply app_nil_r.
Qed.

(** C5.  Sample [i] of the [points + 1] samples of a ridge, at
    [t = i / points], lies at the horizontal position interpolated
    linearly from the outer edge to the valley edge of its side, and at
    the height [base + height * (0.58 + noise * 0.9) * (1 - t)^0.8].
    The noise is the fractional part of
    [sin ((seed + i * 17.1) * 12.9898) * 43758.5453123], the value left
    when the greatest integer below it is taken away, so it lies in
    [[0, 1)]. *)
Theorem ridge_sample_positions :
  forall (side : Side) (seed base half height : R) (w : World) (i : nat),
    (i <= points)%nat ->
    let outerX := match side with left => -14 | right => 14 end in
    let valleyX := match side with left => - half | right => half end in
    let t := INR i / INR points in
    let hash := sin ((seed + INR i * 17.1) * 12.9898) * 43758.5453123 in
    let noise := hash - IZR (Int_part hash) in
    let falloff := JS.Math_pow (1 - t) 0.8 in
    let (shape, w') := createRidgeShape side seed base half height w in
    nth_error (outline (shapeAt w' shape)) (2 + i) =
      Some (outerX + (valleyX - outerX) * t,
            base + height * (0.58 + noise * 0.9) * falloff) /\
    IZR (Int_part hash) <= hash < IZR (Int_part hash) + 1 /\
    noise = pseudoRandom (seed + INR i * 17.1) /\
    0 <= noise < 1 /\
    (i < points -> falloff = Rpower (1 - t) 0.8)%nat /\
    (i = points -> falloff = 0) /\
    length (outline (shapeAt w' shape)) = (2 + (points + 1) + 1)%nat.
Proof.
  intros side seed base half height w i Hi outerX valleyX t hash noise falloff.
  rewrite createRidgeShape_run, shapeAt_created, outline_ridgePath.
  fold outerX valleyX.
  assert (Hfloor : IZR (Int_part hash) <= hash < IZR (Int_part hash) + 1).
  { destruct (base_Int_part hash). lra. }
  split; [|split; [exact Hfloor|split; [reflexivity|split; [|split; [|split]]]]].
  - rewrite nth_error_app2 by (simpl; lia).
    cbn [length]. replace (2 + i - 2)%nat with i by lia.
    rewrite nth_error_app1 by (rewrite length_map, length_seq; lia).
    rewrite nth_error_map, nth_error_seq.
    destruct (Nat.ltb_spec i (S points)) as [_|Hge]; [|lia].
    reflexivity.
  - unfold noise. lra.
  - intros Hlt. unfold falloff, JS.Math_pow.
    destruct (Rlt_dec 0 (1 - t)) as [_|Hn]; [reflexivity|].
    exfalso. apply Hn. unfold t.
    apply lt_INR in Hlt. pose proof (pos_INR i).
    unfold points in *. simpl INR in *. lra.
  - intros ->. unfold falloff, JS.Math_pow, t.
    destruct (Rlt_dec 0 (1 - INR points / INR points)) as [Hp|_]; [|reflexivity].
    exfalso. unfold points in Hp. simpl INR in Hp. lra.
  - rewrite !length_app, length_map, length_seq. reflexivity.
Qed.

Lemma ridge_sample_positions_witness :
  (3 <= points)%nat /\
  nth_error
    (outline (shapeAt (snd (createRidgeShape left 30 (-1.26) 3.4 2.45
                              (mkWorld 0 EMPTY_BANDS [])))
                      (fst (createRidgeShape left 30 (-1.26) 3.4 2.45
                              (mkWorld 0 EMPTY_BANDS []))))) 5 =
  Some (-14 + (- (3.4) - -14) * (INR 3 / INR points),
        -1.26 + 2.45
                * (0.58 + (sin ((30 + INR 3 * 17.1) * 12.9898) * 43758.5453123
                           - IZR (Int_part (sin ((30 + INR 3 * 17.1) * 12.9898)
                                            * 43758.5453123))) * 0.9)
                * JS.Math_pow (1 - INR 3 / INR points) 0.8).
Proof.
  assert (H : (3 <= points)%nat) by (unfold points; lia).
  split; [exact H|].
  pose proof (ridge_sample_positions left 30 (-1.26) 3.4 2.45
                (mkWorld 0 EMPTY_BANDS []) 3 H) as P.
  cbv zeta in P.
  destruct (createRidgeShape left 30 (-1.26) 3.4 2.45 (mkWorld 0 EMPTY_BANDS []))
    as [shape w'].
  exact (proj1 P).
Defined.

(** * The layer table: proofs *)

Lemma ridgeLayer_run (index : nat) (w : World) :
  ridgeLayer index w =
  (layerOf index (length (shapes w)),
   withShapes w (shapes w ++ layerPaths [index])).
Proof.
  unfold ridgeLayer. cbv zeta. unfold bind at 1.
  rewrite createRidgeShape_run. unfold bind at 1.
  rewrite createRidgeShape_run. unfold ret, layerOf, withShapes. cbn [shapes clock bandsRef].
  rewrite length_app, Nat.add_comm, <- app_assoc. reflexivity.
Qed.

Lemma mapM_ridgeLayer (indices : list nat) :
  forall w : World,
    mapM ridgeLayer indices w =
    (layerTable indices (length (shapes w)),
     withShapes w (shapes w ++ layerPaths indices)).
Proof.
  induction indices as [|index rest IH]; intros w.
  - simpl. unfold ret, withShapes. rewrite app_nil_r. now destruct w.
  - cbn [mapM]. unfold bind at 1. rewrite ridgeLayer_run.
    unfold bind at 1. rewrite IH. unfold ret, withShapes.
    cbn [shapes clock bandsRef layerTable].
    rewrite length_app, <- app_assoc. cbn [layerPaths length app].
    replace (length (shapes w) + 2)%nat with (S (S (length (shapes w)))) by lia.
    reflexivity.
Qed.

Lemma layers_run (w : World) :
  layers w =
  (layerTable (seq 0 5) (length (shapes w)),
   withShapes w (shapes w ++ layerPaths (seq 0 5))).
Proof. apply mapM_ridgeLayer. Qed.

Lemma layerTable_nth (indices : list nat) :
  forall (next k : nat),
    nth_error (layerTable indices next) k =
    option_map (fun index => layerOf index (next + 2 * k)%nat) (nth_error indices k).
Proof.
  induction indices as [|index rest IH]; intros next k.
  - now destruct k.
  - destruct k as [|k]; cbn [layerTable nth_error option_map].
    + now rewrite Nat.add_0_r.
    + rewrite IH. destruct (nth_error rest k); [|reflexivity].
      cbn [option_map]. do 2 f_equal. lia.
Qed.

(** The layer at a depth index, in every world. *)
Lemma layers_nth (w : World) (index : nat) (layer : RidgeLayer) :
  nth_error (fst (layers w)) index = Some layer <->
  (index < 5)%nat /\ layer = layerOf index (length (shapes w) + 2 * index)%nat.
Proof.
  rewrite layers_run. cbn [fst]. rewrite layerTable_nth, nth_error_seq.
  destruct (Nat.ltb_spec index 5) as [Hlt|Hge]; cbn [option_map]; split.
  - intros [= <-]. now split.
  - intros [_ ->]. reflexivity.
  - discriminate.
  - intros [H _]. lia.
Qed.

Lemma layers_length (w : World) : length (fst (layers w)) = 5%nat.
Proof.
  rewrite layers_run. reflexivity.
Qed.

(** C4.  In the five-layer table, a layer at a greater depth index has
    a strictly smaller valley half-width, a strictly smaller ridge
    height and a strictly greater motion coefficient. *)
Theorem depth_monotonicity :
  forall (w : World) (i j : nat) (li lj : RidgeLayer),
    nth_error (fst (layers w)) i = Some li ->
    nth_error (fst (layers w)) j = Some lj ->
    (i < j)%nat ->
    length (fst (layers w)) = 5%nat /\
    valleyHalf lj < valleyHalf li /\
    ridgeHeight lj < ridgeHeight li /\
    motion li < motion lj.
Proof.
  intros w i j li lj Hi Hj Hlt.
  apply layers_nth in Hi, Hj. destruct Hi as [_ ->]. destruct Hj as [_ ->].
  apply lt_INR in Hlt. unfold layerOf. cbn [valleyHalf ridgeHeight motion].
  split; [apply layers_length|]. repeat split; lra.
Qed.

Lemma depth_monotonicity_witness :
  valleyHalf (layerOf 4 8) < valleyHalf (layerOf 0 0) /\
  ridgeHeight (layerOf 4 8) < ridgeHeight (layerOf 0 0) /\
  motion (layerOf 0 0) < motion (layerOf 4 8).
Proof.
  pose (w := mkWorld 0 EMPTY_BANDS []).
  assert (H0 : nth_error (fst (layers w)) 0 = Some (layerOf 0 0)).
  { apply layers_nth. split; [lia|reflexivity]. }
  assert (H4 : nth_error (fst (layers w)) 4 = Some (layerOf 4 8)).
  { apply layers_nth. split; [lia|reflexivity]. }
  assert (Hlt : (0 < 4)%nat) by lia.
  exact (proj2 (depth_monotonicity w 0 4 (layerOf 0 0) (layerOf 4 8) H0 H4 Hlt)).
Defined.



(** What the layer callback is spared: the spec's [index / (N - 1)] at
    [N = 1] is the division [0 / 0]. *)
Example spec_formula_at_one_layer :
  divide (INR 0) (INR (1 - 1)) = NotANumber.
Proof.
  change (INR (1 - 1)) with 0. change (INR 0) with 0. unfold divide.
  destruct (Req_dec_T 0 0) as [_|H]; [reflexivity|exfalso; now apply H].
Qed.



(** * The frame callback: proofs *)

Lemma list_update_nth_same {A : Type} (f : A -> A) (l : list A) :
  forall n : nat, nth_error (list_update n f l) n = option_map f (nth_error l n).
Proof.
  induction l as [|a l IH]; intros [|n]; simpl; auto.
Qed.

Lemma list_update_nth_other {A : Type} (f : A -> A) (l : list A) :
  forall n m : nat, n <> m -> nth_error (list_update n f l) m = nth_error l m.
Proof.
  induction l as [|a l IH]; intros [|n] [|m] Hnm; simpl; auto; congruence.
Qed.

Lemma list_update_length {A : Type} (f : A -> A) (l : list A) :
  forall n : nat, length (list_update n f l) = length l.
Proof.
  induction l as [|a l IH]; intros [|n]; simpl; auto.
Qed.

Lemma setPositionY_mounted (refs : Refs) (index : nat) (y : R) (g : Three.Group) :
  nth_error refs index = Some (Some g) ->
  nth_error (setPositionY refs index y) index = Some (Some (Three.mkGroup y)).
Proof.
  intros H. unfold setPositionY. now rewrite list_update_nth_same, H.
Qed.

Lemma setPositionY_other (refs : Refs) (index k : nat) (y : R) :
  index <> k ->
  nth_error (setPositionY refs index y) k = nth_error refs k.
Proof.
  intros H. unfold setPositionY. now apply list_update_nth_other.
Qed.

Section Frame.

Variables t pulse : R.

(** Slots before the current index are out of reach of the rest of the
    iteration. *)
Lemma forEach_frame_before (ls : list RidgeLayer) :
  forall (from k : nat) (refs : Refs * Refs),
    (k < from)%nat ->
    nth_error (fst (forEach_from (frameLayer t pulse) ls from refs)) k
      = nth_error (fst refs) k /\
    nth_error (snd (forEach_from (frameLayer t pulse) ls from refs)) k
      = nth_error (snd refs) k.
Proof.
  induction ls as [|a ls IH]; intros from k refs Hk; cbn [forEach_from].
  - now split.
  - destruct (IH (S from) k (frameLayer t pulse a from refs)) as [Hl Hr]; [lia|].
    rewrite Hl, Hr. unfold frameLayer. cbn [fst snd].
    rewrite !setPositionY_other by lia. now split.
Qed.

(** Each mounted slot receives the offset of its own layer. *)
Lemma forEach_frame_at (ls : list RidgeLayer) :
  forall (from j : nat) (refs : Refs * Refs) (layer : RidgeLayer)
         (gl gr : Three.Group),
    nth_error ls j = Some layer ->
    nth_error (fst refs) (from + j) = Some (Some gl) ->
    nth_error (snd refs) (from + j) = Some (Some gr) ->
    nth_error (fst (forEach_from (frameLayer t pulse) ls from refs)) (from + j)
      = Some (Some (Three.mkGroup (offsetY t pulse layer (from + j)))) /\
    nth_error (snd (forEach_from (frameLayer t pulse) ls from refs)) (from + j)
      = Some (Some (Three.mkGroup (offsetY t pulse layer (from + j) * 0.9))).
Proof.
  induction ls as [|a ls IH]; intros from j refs layer gl gr Hj Hl Hr.
  - now destruct j.
  - cbn [forEach_from]. destruct j as [|j].
    + injection Hj as ->. rewrite Nat.add_0_r in *.
      destruct (forEach_frame_before ls (S from) from (frameLayer t pulse layer from refs))
        as [El Er]; [lia|].
      rewrite El, Er. unfold frameLayer. cbn [fst snd].
      rewrite (setPositionY_mounted _ _ _ gl Hl), (setPositionY_mounted _ _ _ gr Hr).
      now split.
    + cbn [nth_error] in Hj.
      replace (from + S j)%nat with (S from + j)%nat in * by lia.
      apply (IH (S from) j _ layer gl gr Hj); unfold frameLayer; cbn [fst snd];
        rewrite setPositionY_other by lia; assumption.
Qed.

End Frame.

(** C6.  At every tick, for every layer of the table and its depth
    index, the left group is placed at [drift + lift] with
    [drift = sin (t * (0.34 + motion) + index * 0.62) * motion] and
    [lift = mid * motion * 0.65], and the right group at the left offset
    times [0.9]. *)
Theorem frame_offsets_asymmetry :
  forall (ls : list RidgeLayer) (w : World) (leftRefs rightRefs : Refs)
         (index : nat) (layer : RidgeLayer) (gl gr : Three.Group),
    nth_error ls index = Some layer ->
    nth_error leftRefs index = Some (Some gl) ->
    nth_error rightRefs index = Some (Some gr) ->
    let t := clock w in
    let drift := sin (t * (0.34 + motion layer) + INR index * 0.62) * motion layer in
    let lift := mid (bandsRef w) * motion layer * 0.65 in
    let (leftRefs', rightRefs') := valleyFrame ls w (leftRefs, rightRefs) in
    nth_error leftRefs' index = Some (Some (Three.mkGroup (drift + lift))) /\
    nth_error rightRefs' index = Some (Some (Three.mkGroup ((drift + lift) * 0.9))).
Proof.
  intros ls w leftRefs rightRefs index layer gl gr Hlayer Hl Hr t drift lift.
  pose proof (forEach_frame_at (clock w) (mid (bandsRef w)) ls 0 index
                (leftRefs, rightRefs) layer gl gr Hlayer Hl Hr) as H.
  cbn [Nat.add] in H. unfold valleyFrame.
  destruct (forEach_from _ ls 0%nat (leftRefs, rightRefs)) as [l' r'].
  exact H.
Qed.

Lemma frame_offsets_asymmetry_witness :
  nth_error [frontLayer] 0 = Some frontLayer /\
  nth_error restingRefs 0 = Some (Some (Three.mkGroup 0)) /\
  nth_error (snd (valleyFrame [frontLayer] (mkWorld 2 EMPTY_BANDS [])
                    (restingRefs, restingRefs))) 0 =
  Some (Some (Three.mkGroup
    ((sin (2 * (0.34 + motion frontLayer) + INR 0 * 0.62) * motion frontLayer
      + 0 * motion frontLayer * 0.65) * 0.9))).
Proof.
  assert (Hl : nth_error [frontLayer] 0 = Some frontLayer) by reflexivity.
  assert (Hr : nth_error restingRefs 0 = Some (Some (Three.mkGroup 0))) by reflexivity.
  split; [exact Hl|]. split; [exact Hr|].
  pose proof (frame_offsets_asymmetry [frontLayer] (mkWorld 2 EMPTY_BANDS [])
                restingRefs restingRefs 0 frontLayer _ _ Hl Hr Hr) as H.
  cbv zeta in H.
  destruct (valleyFrame [frontLayer] (mkWorld 2 EMPTY_BANDS [])
              (restingRefs, restingRefs)) as [l' r'].
  exact (proj2 H).
Defined.

(** [|drift + lift| <= 1.65 * motion] for a non-negative motion
    coefficient and a pulse in [[0, 1]]. *)
Lemma offsetY_bound (t pulse : R) (layer : RidgeLayer) (index : nat) :
  0 <= motion layer -> 0 <= pulse <= 1 ->
  Rabs (offsetY t pulse layer index) <= motion layer * 1.65.
Proof.
  intros Hm Hp. unfold offsetY, JS.Math_sin.
  set (s := sin _). pose proof (SIN_bound (t * (0.34 + motion layer) + INR index * 0.62)) as Hs.
  fold s in Hs. apply Rabs_le. split; nra.
Qed.

(** C10.  With [mid] in [[0, 1]], every layer of the table is displaced
    by at most [1.65] times its motion coefficient on the left, and by
    at most [1.65 * 0.9] times it on the right, at every tick. *)
Theorem frame_offsets_bounded :
  forall (w0 w : World) (leftRefs rightRefs : Refs)
         (index : nat) (layer : RidgeLayer) (gl gr : Three.Group),
    nth_error (fst (layers w0)) index = Some layer ->
    nth_error leftRefs index = Some (Some gl) ->
    nth_error rightRefs index = Some (Some gr) ->
    0 <= mid (bandsRef w) <= 1 ->
    let (leftRefs', rightRefs') := valleyFrame (fst (layers w0)) w (leftRefs, rightRefs) in
    exists yl yr : R,
      nth_error leftRefs' index = Some (Some (Three.mkGroup yl)) /\
      nth_error rightRefs' index = Some (Some (Three.mkGroup yr)) /\
      Rabs yl <= motion layer * 1.65 /\
      Rabs yr <= motion layer * 1.65 * 0.9.
Proof.
  intros w0 w leftRefs rightRefs index layer gl gr Hlayer Hl Hr Hmid.
  pose proof (forEach_frame_at (clock w) (mid (bandsRef w)) (fst (layers w0)) 0 index
                (leftRefs, rightRefs) layer gl gr Hlayer Hl Hr) as H.
  cbn [Nat.add] in H. unfold valleyFrame.
  destruct (forEach_from _ (fst (layers w0)) 0%nat (leftRefs, rightRefs)) as [l' r'].
  destruct H as [El Er].
  exists (offsetY (clock w) (mid (bandsRef w)) layer index),
         (offsetY (clock w) (mid (bandsRef w)) layer index * 0.9).
  assert (0 <= motion layer) as Hm.
  { apply layers_nth in Hlayer. destruct Hlayer as [_ ->].
    unfold layerOf. cbn [motion]. pose proof (pos_INR index). lra. }
  pose proof (offsetY_bound (clock w) (mid (bandsRef w)) layer index Hm Hmid) as Hb.
  repeat split; try assumption.
  rewrite Rabs_mult, (Rabs_pos_eq 0.9) by lra.
  pose proof (Rabs_pos (offsetY (clock w) (mid (bandsRef w)) layer index)). nra.
Qed.

Lemma frame_offsets_bounded_witness :
  0 <= mid (bandsRef (mkWorld 2 (mkBands 0 0.5 0) [])) <= 1 /\
  exists yl yr : R,
    nth_error (fst (valleyFrame (fst (layers (mkWorld 0 EMPTY_BANDS [])))
                      (mkWorld 2 (mkBands 0 0.5 0) [])
                      (restingRefs, restingRefs))) 0
      = Some (Some (Three.mkGroup yl)) /\
    nth_error (snd (valleyFrame (fst (layers (mkWorld 0 EMPTY_BANDS [])))
                      (mkWorld 2 (mkBands 0 0.5 0) [])
                      (restingRefs, restingRefs))) 0
      = Some (Some (Three.mkGroup yr)) /\
    Rabs yl <= motion frontLayer * 1.65 /\
    Rabs yr <= motion frontLayer * 1.65 * 0.9.
Proof.
  pose (w0 := mkWorld 0 EMPTY_BANDS []).
  pose (w := mkWorld 2 (mkBands 0 0.5 0) []).
  assert (Hmid : 0 <= mid (bandsRef w) <= 1) by (simpl; lra).
  assert (Hlayer : nth_error (fst (layers w0)) 0 = Some frontLayer).
  { apply layers_nth. split; [lia|reflexivity]. }
  assert (Hr : nth_error restingRefs 0 = Some (Some (Three.mkGroup 0))) by reflexivity.
  split; [exact Hmid|].
  pose proof (frame_offsets_bounded w0 w restingRefs restingRefs 0 frontLayer _ _
                Hlayer Hr Hr Hmid) as H.
  fold w0 w.
  destruct (valleyFrame (fst (layers w0)) w (restingRefs, restingRefs)) as [l' r'].
  exact H.
Defined.

(** * The capture effect: proofs *)

Lemma bassOnly_tick :
  tick bassOnly EMPTY_BANDS = {| bass := 0.2; mid := 0; treble := 0 |}.
Proof.
  assert (Hz : forall i, (15 <= i)%nat -> nth i bassOnly 0%Z = 0%Z).
  { intros i Hi. unfold bassOnly. rewrite app_nth2; rewrite repeat_length; [|lia].
    apply nth_repeat. }
  apply scenario_one_cycle.
  - reflexivity.
  - intros i Hi. do 15 (destruct i as [|i]; [reflexivity|]). lia.
  - intros i Hi. apply Hz. lia.
  - intros i Hi. apply Hz. lia.
Qed.

(** The claim of C9 fails as stated: after the teardown of a capturing
    session, with no session capturing and no frame pending, the bands
    still hold the last smoothed values. *)
Lemma stale_bands_after_teardown :
  stopped (run init modeSwitchTrace) = true /\
  frames (run init modeSwitchTrace) = [] /\
  bass (bands (run init modeSwitchTrace)) = 0.2 /\
  bands (run init modeSwitchTrace) <> EMPTY_BANDS.
Proof.
  assert (Hb : bands (run init modeSwitchTrace) = tick bassOnly EMPTY_BANDS)
    by reflexivity.
  split; [reflexivity|]. split; [reflexivity|].
  rewrite Hb, bassOnly_tick. split; [reflexivity|].
  intros H. apply (f_equal bass) in H. simpl in H. lra.
Qed.

(** ** The invariant of runs without a late resume *)

Lemma Inv_init : Inv init.
Proof.
  split; simpl.
  - intros id s [].
  - intros [|s] x H; discriminate.
  - reflexivity.
  - discriminate.
Qed.

Lemma Inv_setError (st : Hook) (e : option string) : Inv st -> Inv (setError st e).
Proof.
  intros [H1 H2 H3 H4]. split; assumption.
Qed.

Lemma nth_error_list_update {A : Type} (f : A -> A) (l : list A) (s k : nat) :
  nth_error (list_update s f l) k =
  if (s =? k)%nat then option_map f (nth_error l k) else nth_error l k.
Proof.
  destruct (Nat.eqb_spec s k) as [->|Hne].
  - apply list_update_nth_same.
  - now apply list_update_nth_other.
Qed.

(** A session that has not started owns no frame. *)
Lemma not_started_no_frame (st : Hook) (s : nat) (x : Session) :
  framesOwned st -> nth_error (sessions st) s = Some x -> stage x <> Started ->
  forall id, ~ In (id, s) (frames st).
Proof.
  intros Hf Hx Hs id Hin. destruct (Hf id s Hin) as (y & Hy & _ & _ & Hst & _).
  congruence.
Qed.

Lemma Inv_setStage (st : Hook) (s : nat) (x : Session) (g : Stage) :
  Inv st -> nth_error (sessions st) s = Some x -> stage x <> Started ->
  Inv (setSession st s (setStage g)).
Proof.
  intros [H1 H2 H3 H4] Hx Hs.
  split; unfold framesOwned, othersCancelled;
    cbn [setSession frames sessions cleanup bands nextFrame]; try assumption.
  - intros id k Hin. destruct (H1 id k Hin) as (y & Hy & Hrest).
    exists y. split; [|exact Hrest].
    rewrite nth_error_list_update. destruct (Nat.eqb_spec s k) as [->|_]; [|exact Hy].
    exfalso. exact (not_started_no_frame st k x H1 Hx Hs id Hin).
  - intros k y Hy Hc. rewrite nth_error_list_update in Hy.
    destruct (Nat.eqb_spec s k) as [->|_].
    + rewrite Hx in Hy. injection Hy as <-. cbn [setStage cancelled].
      exact (H2 k x Hx Hc).
    + exact (H2 k y Hy Hc).
Qed.

(** A tick of a live session that owns no other frame keeps the
    invariant. *)
Lemma Inv_runTick (st : Hook) (s : nat) (x : Session) (snapshot : list Z) :
  Inv st -> nth_error (sessions st) s = Some x ->
  cancelled x = false -> stage x = Started ->
  (forall id, ~ In (id, s) (frames st)) ->
  Inv (runTick s snapshot st).
Proof.
  intros [H1 H2 H3 H4] Hx Hc Hs Hnone.
  split; unfold framesOwned, othersCancelled;
    cbn [runTick frames sessions cleanup bands nextFrame].
  - intros id k Hin. apply in_app_or in Hin. destruct Hin as [Hin|[Heq|[]]].
    + destruct (H1 id k Hin) as (y & Hy & Hrest). exists y. split; [|exact Hrest].
      rewrite nth_error_list_update. destruct (Nat.eqb_spec s k) as [->|_]; [|exact Hy].
      exfalso. exact (Hnone id Hin).
    + injection Heq as <- <-.
      eexists. split.
      * rewrite list_update_nth_same, Hx. reflexivity.
      * cbn [animationFrameId cancelled stage]. repeat split; assumption.
  - intros k y Hy Hcl. rewrite nth_error_list_update in Hy.
    destruct (Nat.eqb_spec s k) as [->|_].
    + rewrite Hx in Hy. injection Hy as <-. cbn [cancelled]. exact (H2 k x Hx Hcl).
    + exact (H2 k y Hy Hcl).
  - intros Hnonecl. exfalso.
    assert (cancelled x = true) by (apply (H2 s x Hx); congruence). congruence.
  - discriminate.
Qed.

(** After the cleanup of the previous run, every session is torn down
    and no frame is pending. *)
Lemma cleanup_phase (st : Hook) :
  Inv st ->
  let st1 := match cleanup st with
             | Some s => teardown s st
             | None => st
             end in
  (forall s x, nth_error (sessions st1) s = Some x -> cancelled x = true) /\
  frames st1 = [] /\ bands st1 = bands st /\ nextFrame st1 = nextFrame st /\
  length (sessions st1) = length (sessions st).
Proof.
  intros [H1 H2 H3 H4].
  assert (Hempty : forall st1 : Hook,
             (forall s x, nth_error (sessions st1) s = Some x -> cancelled x = true) ->
             framesOwned st1 -> frames st1 = []).
  { intros st1 Hall Hf. destruct (frames st1) as [|[id s] fs] eqn:E; [reflexivity|].
    destruct (Hf id s) as (y & Hy & _ & Hc & _); [rewrite E; now left|].
    rewrite (Hall s y Hy) in Hc. discriminate. }
  destruct (cleanup st) as [s|] eqn:Ecl; cbv zeta.
  - unfold teardown. destruct (nth_error (sessions st) s) as [x|] eqn:Ex.
    + assert (Hall : forall k y,
                 nth_error (list_update s
                   (fun x => {| mode := mode x; cancelled := true;
                                animationFrameId := animationFrameId x;
                                stage := stage x |}) (sessions st)) k = Some y ->
                 cancelled y = true).
      { intros k y Hy. rewrite nth_error_list_update in Hy.
        destruct (Nat.eqb_spec s k) as [->|Hne].
        - rewrite Ex in Hy. injection Hy as <-. reflexivity.
        - apply (H2 k y Hy). congruence. }
      cbn [sessions frames bands nextFrame]. split; [exact Hall|].
      split; [|split; [reflexivity|split; [reflexivity|apply list_update_length]]].
      destruct (if (animationFrameId x =? 0)%nat then frames st
                else filter (fun f => negb (fst f =? animationFrameId x)%nat) (frames st))
        as [|[id k] fs] eqn:E; [reflexivity|]. exfalso.
      assert (Hin1 : In (id, k)
                (if (animationFrameId x =? 0)%nat then frames st
                 else filter (fun f => negb (fst f =? animationFrameId x)%nat) (frames st)))
        by (rewrite E; now left).
      assert (Hin : In (id, k) (frames st)).
      { destruct (animationFrameId x =? 0)%nat; [exact Hin1|].
        apply filter_In in Hin1. tauto. }
      destruct (H1 id k Hin) as (y & Hy & Hid & Hc & _ & Hnz).
      destruct (Nat.eq_dec k s) as [->|Hne].
      * rewrite Ex in Hy. injection Hy as <-.
        destruct (Nat.eqb_spec (animationFrameId x) 0) as [Hz|_]; [congruence|].
        apply filter_In in Hin1. destruct Hin1 as [_ Hneq]. cbn [fst] in Hneq.
        rewrite Hid, Nat.eqb_refl in Hneq. discriminate.
      * rewrite (H2 k y Hy) in Hc; [discriminate|congruence].
    + split; [|split; [|repeat split]].
      * intros k y Hy. apply (H2 k y Hy). rewrite Ecl. intros [= <-]. congruence.
      * apply Hempty; [|exact H1].
        intros k y Hy. apply (H2 k y Hy). rewrite Ecl. intros [= <-]. congruence.
  - split; [|split; [|repeat split]].
    + intros k y Hy. apply (H2 k y Hy). rewrite Ecl. discriminate.
    + apply Hempty; [|exact H1]. intros k y Hy. apply (H2 k y Hy).
      rewrite Ecl. discriminate.
Qed.

Lemma Inv_step (st : Hook) (ev : Event) :
  Inv st -> lateResume st ev = false -> Inv (step st ev).
Proof.
  intros HI Hlate. destruct ev as [m enabled|s o|s o snapshot|id snapshot]; cbn [step].
  - (* the effect re-runs *)
    destruct (cleanup_phase st HI) as (Hall & Hfr & Hb & Hn & Hlen).
    set (st1 := match cleanup st with Some s => teardown s st | None => st end) in *.
    destruct HI as [H1 H2 H3 H4].
    destruct enabled; unfold effectBody; cbn [negb].
    + split; unfold framesOwned, othersCancelled;
        cbn [frames sessions cleanup bands nextFrame].
      * rewrite Hfr. intros id s [].
      * intros k y Hy Hk.
        destruct (Nat.lt_ge_cases k (length (sessions st1))) as [Hlt|Hge].
        -- rewrite nth_error_app1 in Hy by exact Hlt. exact (Hall k y Hy).
        -- assert (length (sessions st1) < k)%nat as Hgt
             by (destruct (Nat.eq_dec k (length (sessions st1))); [congruence|lia]).
           assert (nth_error (sessions st1 ++
                     [{| mode := m; cancelled := false; animationFrameId := 0;
                         stage := GettingStream |}]) k = None) as Hnone
             by (apply nth_error_None; rewrite length_app; simpl; lia).
           congruence.
      * discriminate.
      * congruence.
    + split; unfold framesOwned, othersCancelled;
        cbn [frames sessions cleanup bands nextFrame].
      * rewrite Hfr. intros id s [].
      * intros k y Hy _. exact (Hall k y Hy).
      * reflexivity.
      * congruence.
  - (* the media stream promise settles *)
    destruct (nth_error (sessions st) s) as [x|] eqn:Hx; [|exact HI].
    destruct (stage x) eqn:Hs; try exact HI.
    destruct o as [|caught].
    + destruct (cancelled x).
      * apply (Inv_setStage st s x); [exact HI|exact Hx|congruence].
      * apply Inv_setError, (Inv_setStage st s x); [exact HI|exact Hx|congruence].
    + apply Inv_setError, (Inv_setStage st s x); [exact HI|exact Hx|congruence].
  - (* audioContext.resume() settles *)
    cbn [lateResume] in Hlate.
    destruct (nth_error (sessions st) s) as [x|] eqn:Hx; [|exact HI].
    destruct (stage x) eqn:Hs; try exact HI.
    destruct o as [|caught].
    + assert (HI' : Inv (setSession st s (setStage Started)))
        by (apply (Inv_setStage st s x); [exact HI|exact Hx|congruence]).
      apply (Inv_runTick _ s (setStage Started x)); try exact HI'.
      * cbn [setSession sessions]. now rewrite list_update_nth_same, Hx.
      * exact Hlate.
      * reflexivity.
      * cbn [setSession frames].
        apply (not_started_no_frame st s x); [apply HI|exact Hx|congruence].
    + apply Inv_setError, (Inv_setStage st s x); [exact HI|exact Hx|congruence].
  - (* an animation frame fires *)
    destruct (find (fun f => (fst f =? id)%nat) (frames st)) as [[id' s]|] eqn:Hfind;
      [|exact HI].
    apply find_some in Hfind. destruct Hfind as [Hin Hid].
    cbn [fst] in Hid. apply Nat.eqb_eq in Hid. subst id'.
    destruct HI as [H1 H2 H3 H4].
    destruct (H1 id s Hin) as (x & Hx & Hxid & Hxc & Hxs & Hnz).
    apply (Inv_runTick _ s x); cbn [frames sessions]; try assumption.
    + split; unfold framesOwned, othersCancelled;
        cbn [frames sessions cleanup bands nextFrame]; try assumption.
      intros id2 k Hin2. apply filter_In in Hin2. apply (H1 id2 k), Hin2.
    + intros id2 Hin2. apply filter_In in Hin2. destruct Hin2 as [Hin2 Hne].
      cbn [fst] in Hne.
      destruct (H1 id2 s Hin2) as (y & Hy & Hyid & _).
      rewrite Hx in Hy. injection Hy as <-.
      rewrite <- Hyid, Hxid, Nat.eqb_refl in Hne. discriminate.
Qed.

Lemma Inv_run (evs : list Event) :
  forall st : Hook, Inv st -> noLateResume st evs = true -> Inv (run st evs).
Proof.
  induction evs as [|ev evs IH]; intros st HI Hok; [exact HI|].
  cbn [noLateResume] in Hok. apply andb_prop in Hok. destruct Hok as [Hev Hrest].
  apply negb_true_iff in Hev.
  apply (IH (step st ev)); [apply Inv_step; assumption|exact Hrest].
Qed.

(** While the effect is disabled, nothing is left to run a tick. *)
Lemma Inv_disabled_quiet (st : Hook) :
  Inv st -> disabled st = true ->
  bands st = EMPTY_BANDS /\ frames st = [] /\ capturing st = false.
Proof.
  intros [H1 H2 H3 H4] Hd. unfold disabled in Hd.
  destruct (cleanup st) as [s|] eqn:Ecl; [discriminate|].
  assert (Hall : forall k y, nth_error (sessions st) k = Some y -> cancelled y = true).
  { intros k y Hy. apply (H2 k y Hy). rewrite Ecl. discriminate. }
  split; [now apply H3|]. split.
  - destruct (frames st) as [|[id s] fs] eqn:E; [reflexivity|].
    destruct (H1 id s) as (y & Hy & _ & Hc & _); [rewrite E; now left|].
    rewrite (Hall s y Hy) in Hc. discriminate.
  - unfold capturing. apply not_true_is_false. intros Hex.
    apply existsb_exists in Hex. destruct Hex as (y & Hin & Hy).
    apply In_nth_error in Hin. destruct Hin as [k Hk].
    rewrite (Hall k y Hk) in Hy. destruct (stage y); discriminate.
Qed.

(** C9, as the code has it.  In every run in which
    [audioContext.resume()] never resolves for a session already torn
    down: a session that has been torn down has no frame pending, so it
    writes the bands no more; and whenever the effect last ran with
    [enabled = false], the bands are all zero, no session is capturing,
    no frame is pending, and every further event other than a run of
    the effect with [enabled = true] leaves the bands at zero. *)
Theorem disabled_bands_stay_zero :
  forall evs : list Event,
    noLateResume init evs = true ->
    (forall id s x,
        In (id, s) (frames (run init evs)) ->
        nth_error (sessions (run init evs)) s = Some x ->
        cancelled x = false) /\
    (disabled (run init evs) = true ->
     bands (run init evs) = EMPTY_BANDS /\
     frames (run init evs) = [] /\
     capturing (run init evs) = false /\
     (forall ev : Event,
         lateResume (run init evs) ev = false ->
         (forall m, ev <> Effect m true) ->
         disabled (step (run init evs) ev) = true /\
         bands (step (run init evs) ev) = EMPTY_BANDS)).
Proof.
  intros evs Hok.
  pose proof (Inv_run evs init Inv_init Hok) as HI. split.
  { intros id s x Hin Hx.
    destruct (inv_frames _ HI id s Hin) as (y & Hy & _ & Hc & _). congruence. }
  intros Hd.
  destruct (Inv_disabled_quiet _ HI Hd) as (Hb & Hf & Hc).
  split; [exact Hb|]. split; [exact Hf|]. split; [exact Hc|].
  intros ev Hlate Hev.
  assert (Hd' : disabled (step (run init evs) ev) = true).
  { unfold disabled in *.
    destruct ev as [m enabled|s o|s o snapshot|id snapshot]; cbn [step].
    - destruct enabled; [exfalso; now apply (Hev m)|]. reflexivity.
    - destruct (nth_error (sessions (run init evs)) s) as [x|]; [|exact Hd].
      destruct (stage x), o; try exact Hd. destruct (cancelled x); exact Hd.
    - destruct (nth_error (sessions (run init evs)) s) as [x|]; [|exact Hd].
      destruct (stage x), o; exact Hd.
    - rewrite Hf. exact Hd. }
  split; [exact Hd'|].
  apply Inv_disabled_quiet; [apply Inv_step; assumption|exact Hd'].
Qed.

Lemma disabled_bands_stay_zero_witness :
  noLateResume init stopTrace = true /\
  disabled (run init stopTrace) = true /\
  bands (run init stopTrace) = EMPTY_BANDS /\
  frames (run init stopTrace) = [].
Proof.
  assert (Hok : noLateResume init stopTrace = true) by reflexivity.
  assert (Hd : disabled (run init stopTrace) = true) by reflexivity.
  split; [exact Hok|]. split; [exact Hd|].
  pose proof (proj2 (disabled_bands_stay_zero stopTrace Hok) Hd) as H.
  split; [exact (proj1 H)|exact (proj1 (proj2 H))].
Defined.

(** The sessions of that run: the frame requested by the second tick was
    cancelled by the teardown. *)
Example stopTrace_sessions :
  sessions (run init stopTrace) =
  [{| mode := tab; cancelled := true; animationFrameId := 2; stage := Started |}].
Proof. reflexivity. Qed.

(** Why late resumes are set apart: [init] looks at [cancelled] after the
    first await only, so a session torn down while awaiting
    [audioContext.resume()] still starts its tick loop, and writes the
    bands after Stop. *)
Example late_resume_ticks_after_stop :
  noLateResume init lateResumeTrace = false /\
  disabled (run init lateResumeTrace) = true /\
  frames (run init lateResumeTrace) = [(1%nat, 0%nat)] /\
  bass (bands (run init lateResumeTrace)) = 0.2.
Proof.
  assert (Hb : bands (run init lateResumeTrace) = tick bassOnly EMPTY_BANDS)
    by reflexivity.
  repeat split; try reflexivity.
  rewrite Hb, bassOnly_tick. reflexivity.
Qed.

(** * Further properties of the band extractor *)

Lemma lerp_unit (x y : R) :
  0 <= x <= 1 -> 0 <= y <= 1 -> 0 <= Three.lerp x y 0.2 <= 1.
Proof.
  intros Hx Hy. unfold Three.lerp. lra.
Qed.

Lemma tick_unit (snapshot : list Z) (b : AudioBands) :
  valid_snapshot snapshot -> unitBands b -> unitBands (tick snapshot b).
Proof.
  intros Hv (Hb & Hm & Ht). unfold unitBands, tick, set_bass, set_mid, set_treble.
  cbn [bass mid treble].
  repeat split; apply lerp_unit; try assumption; apply averageBand_range, Hv.
Qed.

(** X1.  Extraction keeps the control signal in range: from bands in
    [[0, 1]], any number of cycles on byte snapshots leaves every band in
    [[0, 1]]. *)
Theorem ticks_stay_in_unit_interval :
  forall (snapshots : list (list Z)) (b : AudioBands),
    Forall valid_snapshot snapshots ->
    unitBands b ->
    unitBands (ticks snapshots b).
Proof.
  intros snapshots b Hall. revert b.
  induction Hall as [|s snapshots Hs _ IH]; intros b Hb; [exact Hb|].
  change (ticks (s :: snapshots) b) with (ticks snapshots (tick s b)).
  apply IH, tick_unit; assumption.
Qed.

Lemma valid_repeat (v : Z) (n : nat) :
  (0 <= v <= 255)%Z -> valid_snapshot (repeat v n).
Proof.
  intros Hv. apply Forall_forall. intros x Hx. apply repeat_spec in Hx. now subst.
Qed.

Lemma valid_bassOnly : valid_snapshot bassOnly.
Proof.
  unfold bassOnly. apply Forall_app. split; apply valid_repeat; lia.
Qed.

Lemma ticks_stay_in_unit_interval_witness :
  Forall valid_snapshot [bassOnly; halfScale] /\
  unitBands EMPTY_BANDS /\
  unitBands (ticks [bassOnly; halfScale] EMPTY_BANDS).
Proof.
  assert (H : Forall valid_snapshot [bassOnly; halfScale]).
  { apply Forall_cons; [exact valid_bassOnly|].
    apply Forall_cons; [apply valid_repeat; lia|apply Forall_nil]. }
  assert (H0 : unitBands EMPTY_BANDS) by (unfold unitBands; simpl; lra).
  split; [exact H|]. split; [exact H0|].
  exact (ticks_stay_in_unit_interval [bassOnly; halfScale] EMPTY_BANDS H H0).
Defined.

Lemma binValues_ext (b1 b2 : list Z) (bins : list nat) :
  (forall i, In i bins -> nth i b1 0%Z = nth i b2 0%Z) ->
  binValues b1 bins = binValues b2 bins.
Proof.
  intros H. unfold binValues. apply map_ext_in. exact H.
Qed.

(** [averageBand] reads the bins of its window only. *)
Lemma averageBand_ext (b1 b2 : list Z) (start end_ : nat) :
  length b1 = length b2 -> agreeOn b1 b2 start end_ ->
  averageBand b1 start end_ = averageBand b2 start end_.
Proof.
  intros Hlen Hag. rewrite !averageBand_unfold. cbv zeta.
  assert (Hr : bandRange b1 start end_ = bandRange b2 start end_)
    by (unfold bandRange; now rewrite Hlen).
  rewrite <- Hr.
  rewrite (binValues_ext b1 b2); [reflexivity|].
  intros i Hi. apply bandRange_In in Hi. apply Hag. lia.
Qed.

(** X2.  A cycle reads the three windows only: two snapshots of the
    same length that agree on bins 0-14, 18-70 and 90-180 produce the
    same bands, whatever bins 15-17, 71-89 and 181 onwards hold. *)
Theorem tick_reads_band_windows_only :
  forall (s1 s2 : list Z) (b : AudioBands),
    length s1 = length s2 ->
    agreeOn s1 s2 0 14 -> agreeOn s1 s2 18 70 -> agreeOn s1 s2 90 180 ->
    tick s1 b = tick s2 b.
Proof.
  intros s1 s2 b Hlen H1 H2 H3. unfold tick.
  rewrite (averageBand_ext s1 s2 0 14 Hlen H1),
          (averageBand_ext s1 s2 18 70 Hlen H2),
          (averageBand_ext s1 s2 90 180 Hlen H3).
  reflexivity.
Qed.

Lemma tick_reads_band_windows_only_witness :
  length (repeat 5%Z 15 ++ [1%Z]) = length (repeat 5%Z 15 ++ [200%Z]) /\
  tick (repeat 5%Z 15 ++ [1%Z]) EMPTY_BANDS
  = tick (repeat 5%Z 15 ++ [200%Z]) EMPTY_BANDS.
Proof.
  assert (Hlen : length (repeat 5%Z 15 ++ [1%Z]) = length (repeat 5%Z 15 ++ [200%Z]))
    by reflexivity.
  assert (Hz : forall i, (18 <= i)%nat ->
             nth i (repeat 5%Z 15 ++ [1%Z]) 0%Z = nth i (repeat 5%Z 15 ++ [200%Z]) 0%Z).
  { intros i Hi. rewrite !nth_overflow by (simpl; lia). reflexivity. }
  split; [exact Hlen|].
  apply (tick_reads_band_windows_only _ _ EMPTY_BANDS Hlen).
  - intros i Hi.
    rewrite !(app_nth1 (repeat 5%Z 15)) by (rewrite repeat_length; lia).
    reflexivity.
  - intros i Hi. apply Hz. lia.
  - intros i Hi. apply Hz. lia.
Defined.

Lemma step_bands (st : Hook) (ev : Event) :
  bands (step st ev) = bands st \/
  bands (step st ev) = EMPTY_BANDS \/
  exists snapshot, validEvent ev -> valid_snapshot snapshot /\
                   bands (step st ev) = tick snapshot (bands st).
Proof.
  destruct ev as [m enabled|s o|s o snapshot|id snapshot]; cbn [step].
  - assert (Hb : bands (match cleanup st with
                        | Some s => teardown s st
                        | None => st
                        end) = bands st).
    { destruct (cleanup st) as [s|]; [|reflexivity]. unfold teardown.
      destruct (nth_error (sessions st) s); reflexivity. }
    destruct enabled; unfold effectBody; cbn [negb bands]; auto.
  - left. destruct (nth_error (sessions st) s) as [x|]; [|reflexivity].
    destruct (stage x), o; try reflexivity. destruct (cancelled x); reflexivity.
  - destruct (nth_error (sessions st) s) as [x|]; [|now left].
    destruct (stage x), o; try (now left).
    right. right. exists snapshot. intros Hv. split; [exact Hv|reflexivity].
  - destruct (find _ (frames st)) as [[id' s]|]; [|now left].
    right. right. exists snapshot. intros Hv. split; [exact Hv|reflexivity].
Qed.

(** X3.  Whatever the order of effect runs, promise settlements and
    animation frames, late resumes included, the shared bands stay in
    [[0, 1]] as long as the analyser hands over byte snapshots. *)
Theorem capture_bands_in_unit_interval :
  forall evs : list Event,
    Forall validEvent evs ->
    unitBands (bands (run init evs)).
Proof.
  assert (Hgen : forall evs st, Forall validEvent evs -> unitBands (bands st) ->
                                unitBands (bands (run st evs))).
  { induction evs as [|ev evs IH]; intros st Hall Hst; [exact Hst|].
    inversion Hall as [|? ? Hev Hrest]; subst.
    apply (IH (step st ev) Hrest).
    destruct (step_bands st ev) as [->|[->|(snapshot & Hs)]].
    - exact Hst.
    - unfold unitBands; simpl; lra.
    - destruct (Hs Hev) as [Hv ->]. now apply tick_unit. }
  intros evs Hall. apply Hgen; [exact Hall|].
  unfold unitBands; simpl; lra.
Qed.

Lemma capture_bands_in_unit_interval_witness :
  Forall validEvent lateResumeTrace /\
  unitBands (bands (run init lateResumeTrace)).
Proof.
  assert (H : Forall validEvent lateResumeTrace).
  { unfold lateResumeTrace.
    repeat (apply Forall_cons; [first [exact I | exact valid_bassOnly]|]).
    apply Forall_nil. }
  split; [exact H|].
  exact (capture_bands_in_unit_interval lateResumeTrace H).
Defined.

(** * Further properties of the ridge outlines *)

Lemma builtOutline_eq (side : Side) (seed base half height : R) (w : World) :
  builtOutline side seed base half height w =
  [(outerEdge side, -4.8); (outerEdge side, base + 0.2)]
  ++ map (ridgePoint (outerEdge side) (valleyEdge side half) seed base height)
         (seq 0 (S points))
  ++ [(valleyEdge side half, -4.8)].
Proof.
  unfold builtOutline. rewrite createRidgeShape_run, shapeAt_created.
  apply outline_ridgePath.
Qed.

Lemma builtOutline_sample (side : Side) (seed base half height : R) (w : World)
    (i : nat) :
  (i <= points)%nat ->
  nth_error (builtOutline side seed base half height w) (2 + i) =
  Some (ridgePoint (outerEdge side) (valleyEdge side half) seed base height i).
Proof.
  intros Hi. rewrite builtOutline_eq.
  rewrite nth_error_app2 by (simpl; lia).
  cbn [length]. replace (2 + i - 2)%nat with i by lia.
  rewrite nth_error_app1 by (rewrite length_map, length_seq; lia).
  rewrite nth_error_map, nth_error_seq.
  destruct (Nat.ltb_spec i (S points)) as [_|Hge]; [reflexivity|lia].
Qed.

Lemma Math_pow_one (y : R) : JS.Math_pow 1 y = 1.
Proof.
  unfold JS.Math_pow. destruct (Rlt_dec 0 1) as [_|Hn]; [|exfalso; lra].
  unfold Rpower. now rewrite ln_1, Rmult_0_r, exp_0.
Qed.

Lemma Math_pow_zero (y : R) : JS.Math_pow 0 y = 0.
Proof.
  unfold JS.Math_pow. destruct (Rlt_dec 0 0) as [Hp|_]; [exfalso; lra|reflexivity].
Qed.

(** The falloff of a sample lies in [[0, 1]]. *)
Lemma Math_pow_unit (x : R) : 0 <= x <= 1 -> 0 <= JS.Math_pow x 0.8 <= 1.
Proof.
  intros [Hlo Hhi]. unfold JS.Math_pow.
  destruct (Rlt_dec 0 x) as [Hp|_]; [|lra].
  unfold Rpower. split; [left; apply exp_pos|].
  rewrite <- exp_0.
  destruct (Req_dec x 1) as [->|Hne].
  - rewrite ln_1, Rmult_0_r. lra.
  - left. apply exp_increasing.
    assert (ln x < 0) by (rewrite <- ln_1; apply ln_increasing; lra).
    lra.
Qed.

(** X4.  For a non-negative height, every sample of a ridge lies between
    the baseline and [1.48] heights above it. *)
Theorem ridge_samples_within_envelope :
  forall (side : Side) (seed base half height : R) (w : World) (i : nat),
    (i <= points)%nat -> 0 <= height ->
    exists x y : R,
      nth_error (builtOutline side seed base half height w) (2 + i) = Some (x, y) /\
      base <= y <= base + 1.48 * height.
Proof.
  intros side seed base half height w i Hi Hh.
  eexists. eexists. split; [apply builtOutline_sample, Hi|].
  pose proof (pseudoRandom_range (seed + INR i * 17.1)) as Hn.
  pose proof (sample_fraction i Hi) as Ht.
  pose proof (Math_pow_unit (1 - INR i / INR points)) as Hf.
  set (n := pseudoRandom (seed + INR i * 17.1)) in *.
  set (f := JS.Math_pow (1 - INR i / INR points) 0.8) in *.
  assert (0 <= f <= 1) as Hf' by (apply Hf; lra).
  assert (0 <= height * (0.58 + n * 0.9) <= 1.48 * height) as Ha by nra.
  set (a := height * (0.58 + n * 0.9)) in *.
  split; nra.
Qed.

Lemma ridge_samples_within_envelope_witness :
  (4 <= points)%nat /\ 0 <= 2.45 /\
  exists x y : R,
    nth_error (builtOutline left 30 (-1.26) 3.4 2.45 emptyWorld) 6 = Some (x, y) /\
    -1.26 <= y <= -1.26 + 1.48 * 2.45.
Proof.
  assert (Hi : (4 <= points)%nat) by (unfold points; lia).
  assert (Hh : 0 <= 2.45) by lra.
  split; [exact Hi|]. split; [exact Hh|].
  exact (ridge_samples_within_envelope left 30 (-1.26) 3.4 2.45 emptyWorld 4 Hi Hh).
Defined.

(** X5.  The fixed points of an outline: it starts on the floor at the
    outer edge, rises to [0.2] above the baseline, takes its first
    sample at the outer edge with the full height factor, takes its last
    sample on the baseline at the valley edge, and drops to the floor
    there; the path opens with a [moveTo] and ends with [closePath]. *)
Theorem ridge_outline_fixed_points :
  forall (side : Side) (seed base half height : R) (w : World),
    let pts := builtOutline side seed base half height w in
    nth_error pts 0 = Some (outerEdge side, -4.8) /\
    nth_error pts 1 = Some (outerEdge side, base + 0.2) /\
    nth_error pts 2 =
      Some (outerEdge side, base + height * (0.58 + pseudoRandom seed * 0.9)) /\
    nth_error pts (2 + points) = Some (valleyEdge side half, base) /\
    nth_error pts (3 + points) = Some (valleyEdge side half, -4.8) /\
    length pts = (4 + points)%nat /\
    (let (shape, w') := createRidgeShape side seed base half height w in
     hd_error (shapeAt w' shape) = Some (Three.MoveTo (outerEdge side) (-4.8)) /\
     last (shapeAt w' shape) (Three.MoveTo 0 0) = Three.ClosePath).
Proof.
  intros side seed base half height w pts.
  assert (H0 : ridgePoint (outerEdge side) (valleyEdge side half) seed base height 0
               = (outerEdge side, base + height * (0.58 + pseudoRandom seed * 0.9))).
  { unfold ridgePoint, Three.lerp, points. simpl INR.
    replace (1 - 0 / (1 + 1 + 1 + 1 + 1 + 1 + 1 + 1 + 1 + 1)) with 1 by lra.
    rewrite Math_pow_one. f_equal; [lra|].
    replace (seed + 0 * 17.1) with seed by lra. lra. }
  assert (H10 : ridgePoint (outerEdge side) (valleyEdge side half) seed base height points
                = (valleyEdge side half, base)).
  { unfold ridgePoint, Three.lerp, points. simpl INR.
    replace (1 - (1 + 1 + 1 + 1 + 1 + 1 + 1 + 1 + 1 + 1)
                 / (1 + 1 + 1 + 1 + 1 + 1 + 1 + 1 + 1 + 1)) with 0 by lra.
    rewrite Math_pow_zero. f_equal; lra. }
  split; [unfold pts; now rewrite builtOutline_eq|].
  split; [unfold pts; now rewrite builtOutline_eq|].
  split.
  { unfold pts. change 2%nat with (2 + 0)%nat.
    rewrite builtOutline_sample by (unfold points; lia). now rewrite H0. }
  split.
  { unfold pts. rewrite builtOutline_sample by lia. now rewrite H10. }
  split.
  { unfold pts. rewrite builtOutline_eq.
    rewrite nth_error_app2 by (simpl; lia).
    rewrite nth_error_app2 by (rewrite length_map, length_seq; simpl; lia).
    rewrite length_map, length_seq. reflexivity. }
  split.
  { unfold pts. rewrite builtOutline_eq.
    rewrite !length_app, length_map, length_seq. reflexivity. }
  rewrite createRidgeShape_run, shapeAt_created. unfold ridgePath. cbv zeta.
  split; [reflexivity|].
  rewrite app_assoc.
  change [Three.LineTo (match side with left => - half | right => half end) (-4.8);
          Three.ClosePath]
    with ([Three.LineTo (match side with left => - half | right => half end) (-4.8)]
          ++ [Three.ClosePath]).
  rewrite app_assoc. apply last_last.
Qed.

(** X6.  Ridges keep the valley clear: with a half-width between [0] and
    [14], every point of a left outline has [-14 <= x <= - half] and
    every point of a right outline [half <= x <= 14]. *)
Theorem ridge_keeps_valley_clear :
  forall (side : Side) (seed base half height : R) (w : World) (p : R * R),
    0 <= half <= 14 ->
    In p (builtOutline side seed base half height w) ->
    match side with
    | left => -14 <= fst p <= - half
    | right => half <= fst p <= 14
    end.
Proof.
  intros side seed base half height w p Hhalf Hin.
  rewrite builtOutline_eq in Hin.
  assert (Hx : fst p = outerEdge side \/ fst p = valleyEdge side half \/
               exists t, 0 <= t <= 1 /\
                 fst p = Three.lerp (outerEdge side) (valleyEdge side half) t).
  { apply in_app_or in Hin. destruct Hin as [[<-|[<-|[]]]|Hin]; [now left|now left|].
    apply in_app_or in Hin. destruct Hin as [Hin|[<-|[]]]; [|right; now left].
    apply in_map_iff in Hin. destruct Hin as (i & <- & Hi).
    apply in_seq in Hi. right. right. exists (INR i / INR points).
    split; [apply sample_fraction; lia|reflexivity]. }
  destruct side; cbn [outerEdge valleyEdge] in Hx;
    destruct Hx as [->|[->|(t & Ht & ->)]]; unfold Three.lerp; try lra; nra.
Qed.

Lemma ridge_keeps_valley_clear_witness :
  0 <= 3.4 <= 14 /\
  -14 <= fst (-14, -4.8) <= - (3.4).
Proof.
  assert (Hh : 0 <= 3.4 <= 14) by lra.
  assert (Hin : In (-14, -4.8) (builtOutline left 30 (-1.26) 3.4 2.45 emptyWorld)).
  { rewrite builtOutline_eq. now left. }
  split; [exact Hh|].
  exact (ridge_keeps_valley_clear left 30 (-1.26) 3.4 2.45 emptyWorld _ Hh Hin).
Defined.

(** X7.  For the same seed and parameters, the right outline is the
    mirror image of the left one. *)
Theorem ridge_sides_mirror :
  forall (seed base half height : R) (w1 w2 : World),
    builtOutline right seed base half height w1 =
    map mirror (builtOutline left seed base half height w2).
Proof.
  intros seed base half height w1 w2. rewrite !builtOutline_eq.
  cbn [outerEdge valleyEdge]. rewrite !map_app, map_map. cbn [map].
  assert (E1 : forall y, mirror (-14, y) = (14, y))
    by (intros y; unfold mirror; cbn [fst snd]; f_equal; lra).
  assert (E2 : forall y, mirror (- half, y) = (half, y))
    by (intros y; unfold mirror; cbn [fst snd]; f_equal; lra).
  rewrite !E1, E2.
  apply f_equal2; [reflexivity|]. apply f_equal2; [|reflexivity].
  apply map_ext. intros i. unfold ridgePoint, mirror, Three.lerp. cbn [fst snd].
  f_equal. lra.
Qed.

(** * Further properties of the layer table *)

Lemma builtShape_eq (side : Side) (seed base half height : R) (w : World) :
  builtShape side seed base half height w = ridgePath side seed base half height.
Proof.
  unfold builtShape. rewrite createRidgeShape_run. apply shapeAt_created.
Qed.

Lemma layerPaths_nth (indices : list nat) :
  forall (k index : nat),
    nth_error indices k = Some index ->
    let l := layerOf index 0 in
    nth (2 * k) (layerPaths indices) [] =
      ridgePath left (30 + INR index * 12.3) (baseY l) (valleyHalf l) (ridgeHeight l) /\
    nth (S (2 * k)) (layerPaths indices) [] =
      ridgePath right (70 + INR index * 13.7) (baseY l) (valleyHalf l) (ridgeHeight l).
Proof.
  induction indices as [|a rest IH]; intros [|k] index Hk; try discriminate.
  - injection Hk as ->. split; reflexivity.
  - cbn [nth_error] in Hk. replace (2 * S k)%nat with (S (S (2 * k))) by lia.
    cbn [layerPaths nth]. exact (IH k index Hk).
Qed.

Lemma layerPaths_length (indices : list nat) :
  length (layerPaths indices) = (2 * length indices)%nat.
Proof.
  induction indices as [|a rest IH]; [reflexivity|].
  cbn [layerPaths length]. rewrite IH. lia.
Qed.

(** The shape objects of a layer in the world the table leaves. *)
Lemma layers_shapeAt (w : World) (index : nat) :
  (index < 5)%nat ->
  let l := layerOf index (length (shapes w) + 2 * index) in
  shapeAt (snd (layers w)) (leftShape l) =
    ridgePath left (30 + INR index * 12.3) (baseY l) (valleyHalf l) (ridgeHeight l) /\
  shapeAt (snd (layers w)) (rightShape l) =
    ridgePath right (70 + INR index * 13.7) (baseY l) (valleyHalf l) (ridgeHeight l).
Proof.
  intros Hlt l. rewrite layers_run. unfold shapeAt, withShapes, l, layerOf.
  cbn [snd shapes leftShape rightShape baseY valleyHalf ridgeHeight].
  assert (Hk : nth_error (seq 0 5) index = Some index).
  { rewrite nth_error_seq. destruct (Nat.ltb_spec index 5); [reflexivity|lia]. }
  destruct (layerPaths_nth (seq 0 5) index index Hk) as [Hl Hr].
  split.
  - rewrite app_nth2 by lia.
    replace (length (shapes w) + 2 * index - length (shapes w))%nat
      with (2 * index)%nat by lia.
    exact Hl.
  - rewrite app_nth2 by lia.
    replace (S (length (shapes w) + 2 * index) - length (shapes w))%nat
      with (S (2 * index)) by lia.
    exact Hr.
Qed.

(** X8.  Building the table allocates ten fresh shapes, two per layer,
    and leaves the earlier ones alone; the left and right shape of the
    layer at a depth index are the ridges [createRidgeShape] builds from
    the seeds [30 + 12.3 * index] and [70 + 13.7 * index] and from that
    layer's own baseline, half-width and height. *)
Theorem layers_hold_their_own_ridges :
  forall (w w0 : World) (index : nat) (layer : RidgeLayer),
    nth_error (fst (layers w)) index = Some layer ->
    let w' := snd (layers w) in
    shapeAt w' (leftShape layer) =
      builtShape left (30 + INR index * 12.3)
        (baseY layer) (valleyHalf layer) (ridgeHeight layer) w0 /\
    shapeAt w' (rightShape layer) =
      builtShape right (70 + INR index * 13.7)
        (baseY layer) (valleyHalf layer) (ridgeHeight layer) w0 /\
    leftShape layer = (length (shapes w) + 2 * index)%nat /\
    rightShape layer = S (leftShape layer) /\
    length (shapes w') = (length (shapes w) + 10)%nat /\
    firstn (length (shapes w)) (shapes w') = shapes w.
Proof.
  intros w w0 index layer Hlayer w'.
  apply layers_nth in Hlayer. destruct Hlayer as [Hlt ->].
  destruct (layers_shapeAt w index Hlt) as [Hl Hr].
  rewrite !builtShape_eq.
  split; [exact Hl|]. split; [exact Hr|].
  split; [reflexivity|]. split; [reflexivity|].
  unfold w'. rewrite layers_run. cbn [snd withShapes shapes]. split.
  - rewrite length_app, layerPaths_length. reflexivity.
  - rewrite firstn_app, Nat.sub_diag, firstn_all. simpl. apply app_nil_r.
Qed.

Lemma layers_hold_their_own_ridges_witness :
  shapeAt (snd (layers emptyWorld)) 9%nat =
  builtShape right (70 + INR 4 * 13.7)
    (baseY (layerOf 4 8)) (valleyHalf (layerOf 4 8)) (ridgeHeight (layerOf 4 8))
    emptyWorld.
Proof.
  assert (H4 : nth_error (fst (layers emptyWorld)) 4 = Some (layerOf 4 8)).
  { apply layers_nth. split; [lia|reflexivity]. }
  exact (proj1 (proj2
    (layers_hold_their_own_ridges emptyWorld emptyWorld 4 (layerOf 4 8) H4))).
Defined.

(** X9.  Every layer of the table has a positive half-width in
    [[1.25, 3.4]] and a positive height in [[1.53, 2.45]], a baseline in
    [[-1.26, -0.84]], a motion coefficient in [[0.08, 0.32]], a depth
    coordinate in [[-14.3, -8.5]] and colours whose channels lie in
    [[0, 1]]; towards greater depth indices the baseline rises and the
    depth coordinate recedes, strictly. *)
Theorem layer_table_ranges :
  forall (w : World) (i j : nat) (li lj : RidgeLayer),
    nth_error (fst (layers w)) i = Some li ->
    nth_error (fst (layers w)) j = Some lj ->
    (i <= j)%nat ->
    1.25 <= valleyHalf li <= 3.4 /\
    1.53 <= ridgeHeight li <= 2.45 /\
    -1.26 <= baseY li <= -0.84 /\
    0.08 <= motion li <= 0.32 /\
    -14.3 <= z li <= -8.5 /\
    validColor (fill li) /\ validColor (stroke li) /\
    ((i < j)%nat -> baseY li < baseY lj /\ z lj < z li).
Proof.
  intros w i j li lj Hi Hj Hle.
  apply layers_nth in Hi, Hj. destruct Hi as [Hi ->]. destruct Hj as [Hj ->].
  assert (0 <= INR i <= 4) as Hr.
  { split; [apply pos_INR|].
    assert (i <= 4)%nat as H4 by lia. apply le_INR in H4. simpl in H4. lra. }
  unfold layerOf, validColor.
  cbn [valleyHalf ridgeHeight baseY motion z fill stroke
       Three.red Three.green Three.blue].
  repeat split; try lra.
  - apply lt_INR in H. lra.
  - apply lt_INR in H. lra.
Qed.

Lemma layer_table_ranges_witness :
  (1 <= 3)%nat /\
  validColor (stroke (layerOf 1 2)) /\
  baseY (layerOf 1 2) < baseY (layerOf 3 6).
Proof.
  assert (H1 : nth_error (fst (layers emptyWorld)) 1 = Some (layerOf 1 2)).
  { apply layers_nth. split; [lia|reflexivity]. }
  assert (H3 : nth_error (fst (layers emptyWorld)) 3 = Some (layerOf 3 6)).
  { apply layers_nth. split; [lia|reflexivity]. }
  assert (Hle : (1 <= 3)%nat) by lia.
  assert (Hlt : (1 < 3)%nat) by lia.
  pose proof (layer_table_ranges emptyWorld 1 3 (layerOf 1 2) (layerOf 3 6) H1 H3 Hle)
    as (_ & _ & _ & _ & _ & _ & Hs & Hm).
  split; [exact Hle|]. split; [exact Hs|exact (proj1 (Hm Hlt))].
Defined.

(** The points of an outline, one by one. *)
Lemma builtOutline_In (side : Side) (seed base half height : R) (w : World)
    (p : R * R) :
  In p (builtOutline side seed base half height w) ->
  p = (outerEdge side, -4.8) \/ p = (outerEdge side, base + 0.2) \/
  p = (valleyEdge side half, -4.8) \/
  exists i, (i <= points)%nat /\
    p = ridgePoint (outerEdge side) (valleyEdge side half) seed base height i.
Proof.
  rewrite builtOutline_eq. intros Hin.
  apply in_app_or in Hin. destruct Hin as [[<-|[<-|[]]]|Hin]; [now left|right; now left|].
  apply in_app_or in Hin. destruct Hin as [Hin|[<-|[]]]; [|right; right; now left].
  apply in_map_iff in Hin. destruct Hin as (i & <- & Hi). apply in_seq in Hi.
  right. right. right. exists i. split; [lia|reflexivity].
Qed.

(** X10.  The terrain stays out of the central valley and inside a fixed
    box: every outline point of every layer's left shape has
    [-14 <= x <= -1.25], every point of a right shape [1.25 <= x <= 14],
    and all of them [-4.8 <= y <= 2.366]. *)
Theorem terrain_bounding_boxes :
  forall (w : World) (index : nat) (layer : RidgeLayer) (p : R * R),
    nth_error (fst (layers w)) index = Some layer ->
    let w' := snd (layers w) in
    (In p (outline (shapeAt w' (leftShape layer))) ->
     -14 <= fst p <= -1.25 /\ -4.8 <= snd p <= 2.366) /\
    (In p (outline (shapeAt w' (rightShape layer))) ->
     1.25 <= fst p <= 14 /\ -4.8 <= snd p <= 2.366).
Proof.
  intros w index layer p Hlayer w'.
  apply layers_nth in Hlayer. destruct Hlayer as [Hlt ->].
  destruct (layers_shapeAt w index Hlt) as [Hl Hr].
  unfold w'. rewrite Hl, Hr.
  rewrite <- (builtShape_eq left _ _ _ _ emptyWorld),
          <- (builtShape_eq right _ _ _ _ emptyWorld).
  change (outline (builtShape ?s ?a ?b ?c ?d ?e)) with (builtOutline s a b c d e).
  assert (0 <= INR index <= 4) as Hr4.
  { split; [apply pos_INR|].
    assert (index <= 4)%nat as H4 by lia. apply le_INR in H4. simpl in H4. lra. }
  unfold layerOf. cbn [baseY valleyHalf ridgeHeight].
  set (d := INR index / 4).
  assert (0 <= d <= 1) as Hd by (unfold d; lra).
  assert (Hsample : forall side seed i, (i <= points)%nat ->
            let q := ridgePoint (outerEdge side) (valleyEdge side (3.4 - d * 2.15))
                       seed (-1.26 + d * 0.42) (2.45 - d * 0.92) i in
            -4.8 <= snd q <= 2.366 /\
            exists t, 0 <= t <= 1 /\
              fst q = Three.lerp (outerEdge side) (valleyEdge side (3.4 - d * 2.15)) t).
  { intros side seed i Hi q. unfold q, ridgePoint. cbn [fst snd].
    pose proof (pseudoRandom_range (seed + INR i * 17.1)) as Hn.
    pose proof (sample_fraction i Hi) as Ht.
    pose proof (Math_pow_unit (1 - INR i / INR points)) as Hf.
    set (n := pseudoRandom (seed + INR i * 17.1)) in *.
    set (f := JS.Math_pow (1 - INR i / INR points) 0.8) in *.
    assert (0 <= f <= 1) as Hf' by (apply Hf; lra).
    assert (0 <= (2.45 - d * 0.92) * (0.58 + n * 0.9) <= 1.48 * (2.45 - d * 0.92))
      as Ha by nra.
    set (a := (2.45 - d * 0.92) * (0.58 + n * 0.9)) in *.
    split; [split; nra|].
    exists (INR i / INR points). split; [exact Ht|reflexivity]. }
  split; intros Hin; apply builtOutline_In in Hin.
  - destruct Hin as [->|[->|[->|(i & Hi & ->)]]].
    1-3: cbn [fst snd outerEdge valleyEdge]; split; lra.
    destruct (Hsample left (30 + INR index * 12.3) i Hi) as (Hy & t & Ht & ->).
    split; [|exact Hy]. unfold Three.lerp. cbn [outerEdge valleyEdge]. split; nra.
  - destruct Hin as [->|[->|[->|(i & Hi & ->)]]].
    1-3: cbn [fst snd outerEdge valleyEdge]; split; lra.
    destruct (Hsample right (70 + INR index * 13.7) i Hi) as (Hy & t & Ht & ->).
    split; [|exact Hy]. unfold Three.lerp. cbn [outerEdge valleyEdge]. split; nra.
Qed.

Lemma terrain_bounding_boxes_witness :
  In (-14, -4.8) (outline (shapeAt (snd (layers emptyWorld)) 0%nat)) /\
  -14 <= fst (-14, -4.8) <= -1.25 /\ -4.8 <= snd (-14, -4.8) <= 2.366.
Proof.
  assert (H0 : nth_error (fst (layers emptyWorld)) 0 = Some (layerOf 0 0)).
  { apply layers_nth. split; [lia|reflexivity]. }
  assert (Hin : In (-14, -4.8) (outline (shapeAt (snd (layers emptyWorld)) 0%nat))).
  { destruct (layers_shapeAt emptyWorld 0) as [Hl _]; [lia|].
    cbn [leftShape layerOf] in Hl. change (length (shapes emptyWorld) + 2 * 0)%nat
      with 0%nat in Hl.
    rewrite Hl, outline_ridgePath. now left. }
  split; [exact Hin|].
  exact (proj1 (terrain_bounding_boxes emptyWorld 0 (layerOf 0 0) (-14, -4.8) H0) Hin).
Defined.

(** * Further properties of the capture effect *)

(** Cancelling frames keeps ids, and owners, apart. *)
Lemma frames_kept_NoDup (proj : nat * nat -> nat) (fs : list (nat * nat))
    (keep : nat * nat -> bool) :
  NoDup (map proj fs) -> NoDup (map proj (filter keep fs)).
Proof.
  intros Hnd. induction fs as [|fr fs IH]; [exact Hnd|].
  cbn [map] in Hnd. apply NoDup_cons_iff in Hnd. destruct Hnd as [Hfresh Hrest].
  cbn [filter]. destruct (keep fr); [|exact (IH Hrest)].
  cbn [map]. apply NoDup_cons; [|exact (IH Hrest)].
  intros Hin. apply Hfresh. apply in_map_iff in Hin.
  destruct Hin as (fr' & Hproj & Hin). apply filter_In in Hin.
  apply in_map_iff. exists fr'. tauto.
Qed.

Lemma Sound_init : Sound init.
Proof.
  split; cbn.
  - intros id s [].
  - constructor.
  - constructor.
  - intros [|s] x H; discriminate.
  - discriminate.
  - lia.
Qed.

Lemma Sound_setError (st : Hook) (e : option string) : Sound st -> Sound (setError st e).
Proof.
  intros [H1 H2 H3 H4 H5 H6]. split; assumption.
Qed.

(** Rewriting one session keeps the invariant when the session keeps its
    frame id, stays started if it was, and stays cancelled if it was. *)
Lemma Sound_sessions (st : Hook) (s : nat) (f : Session -> Session) :
  Sound st ->
  (forall x, nth_error (sessions st) s = Some x ->
     animationFrameId (f x) = animationFrameId x /\
     (stage x = Started -> stage (f x) = Started) /\
     (cancelled x = true -> cancelled (f x) = true)) ->
  Sound {| bands := bands st; error := error st;
           sessions := list_update s f (sessions st);
           cleanup := cleanup st; frames := frames st;
           nextFrame := nextFrame st |}.
Proof.
  intros [H1 H2 H3 H4 H5 H6] Hf.
  split; unfold framesShaped, othersCancelled;
    cbn [frames sessions cleanup bands nextFrame]; try assumption.
  - intros id k Hin. destruct (H1 id k Hin) as (y & Hy & Hid & Hst & Hlt).
    rewrite nth_error_list_update. destruct (Nat.eqb_spec s k) as [->|_].
    + rewrite Hy. cbn [option_map]. exists (f y).
      destruct (Hf y Hy) as (Ea & Es & _).
      split; [reflexivity|]. split; [congruence|]. split; [tauto|lia].
    + exists y. tauto.
  - intros k y Hy Hc. rewrite nth_error_list_update in Hy.
    destruct (Nat.eqb_spec s k) as [->|_]; [|exact (H4 k y Hy Hc)].
    destruct (nth_error (sessions st) k) as [x|] eqn:Hx; [|discriminate].
    injection Hy as <-. apply (Hf x eq_refl), (H4 k x Hx Hc).
  - intros k Hk. rewrite list_update_length. exact (H5 k Hk).
Qed.

(** Dropping pending frames keeps the invariant. *)
Lemma Sound_filter (st : Hook) (p : nat * nat -> bool) :
  Sound st ->
  Sound {| bands := bands st; error := error st; sessions := sessions st;
           cleanup := cleanup st; frames := filter p (frames st);
           nextFrame := nextFrame st |}.
Proof.
  intros [H1 H2 H3 H4 H5 H6].
  split; unfold framesShaped, othersCancelled;
    cbn [frames sessions cleanup bands nextFrame]; try assumption.
  - intros id k Hin. apply filter_In in Hin. exact (H1 id k (proj1 Hin)).
  - now apply frames_kept_NoDup.
  - now apply frames_kept_NoDup.
Qed.

Lemma Sound_setStage (st : Hook) (s : nat) (x : Session) (g : Stage) :
  Sound st -> nth_error (sessions st) s = Some x -> stage x <> Started ->
  Sound (setSession st s (setStage g)).
Proof.
  intros HS Hx Hs. apply (Sound_sessions st s (setStage g) HS).
  intros y Hy. rewrite Hx in Hy. injection Hy as <-.
  cbn [setStage animationFrameId cancelled stage]. tauto.
Qed.

Lemma Sound_runTick (st : Hook) (s : nat) (x : Session) (snapshot : list Z) :
  Sound st -> nth_error (sessions st) s = Some x -> stage x = Started ->
  (forall id, ~ In (id, s) (frames st)) ->
  Sound (runTick s snapshot st).
Proof.
  intros [H1 H2 H3 H4 H5 H6] Hx Hs Hnone.
  split; unfold framesShaped, othersCancelled;
    cbn [runTick frames sessions cleanup bands nextFrame].
  - intros id k Hin. apply in_app_or in Hin. destruct Hin as [Hin|[Heq|[]]].
    + destruct (H1 id k Hin) as (y & Hy & Hid & Hst & Hlt).
      exists y. rewrite nth_error_list_update.
      destruct (Nat.eqb_spec s k) as [->|_]; [exfalso; exact (Hnone id Hin)|].
      repeat split; try assumption; lia.
    + injection Heq as <- <-. eexists. split.
      * rewrite list_update_nth_same, Hx. reflexivity.
      * cbn [animationFrameId stage]. repeat split; try assumption; lia.
  - rewrite map_app. apply NoDup_app; [exact H2|repeat constructor; intros []|].
    intros id Hin [<-|[]]. apply in_map_iff in Hin.
    destruct Hin as ([id' k] & Hid & Hin). cbn [fst] in Hid. subst id'.
    destruct (H1 _ k Hin) as (y & _ & _ & _ & Hlt). lia.
  - rewrite map_app. apply NoDup_app; [exact H3|repeat constructor; intros []|].
    intros k Hin [<-|[]]. apply in_map_iff in Hin.
    destruct Hin as ([id k'] & Hk & Hin). cbn [snd] in Hk. subst k'.
    exact (Hnone id Hin).
  - intros k y Hy Hc. rewrite nth_error_list_update in Hy.
    destruct (Nat.eqb_spec s k) as [->|_]; [|exact (H4 k y Hy Hc)].
    rewrite Hx in Hy. injection Hy as <-. cbn [cancelled]. exact (H4 k x Hx Hc).
  - intros k Hk. rewrite list_update_length. exact (H5 k Hk).
  - lia.
Qed.

(** The cleanup of the previous run of the effect. *)
Lemma Sound_cleanup_phase (st : Hook) :
  Sound st ->
  let st1 := match cleanup st with
             | Some s => teardown s st
             | None => st
             end in
  Sound st1 /\
  (forall k y, nth_error (sessions st1) k = Some y -> cancelled y = true) /\
  (forall s id, cleanup st = Some s -> ~ In (id, s) (frames st1)) /\
  length (sessions st1) = length (sessions st) /\
  cleanup st1 = cleanup st.
Proof.
  intros HS. destruct (cleanup st) as [s|] eqn:Ecl; cbv zeta.
  - pose proof (sound_cleanup st HS s Ecl) as Hlt.
    destruct (nth_error (sessions st) s) as [x|] eqn:Hx;
      [|apply nth_error_None in Hx; lia].
    set (cancel := fun x : Session =>
                     {| mode := mode x; cancelled := true;
                        animationFrameId := animationFrameId x; stage := stage x |}).
    assert (HS2 : Sound {| bands := bands st; error := error st;
                           sessions := list_update s cancel (sessions st);
                           cleanup := cleanup st; frames := frames st;
                           nextFrame := nextFrame st |}).
    { apply Sound_sessions; [exact HS|]. intros y _. unfold cancel.
      cbn [animationFrameId stage cancelled]. tauto. }
    assert (Hall : forall k y, nth_error (list_update s cancel (sessions st)) k = Some y ->
                               cancelled y = true).
    { intros k y Hy. rewrite nth_error_list_update in Hy.
      destruct (Nat.eqb_spec s k) as [->|Hne].
      - rewrite Hx in Hy. injection Hy as <-. reflexivity.
      - apply (sound_others st HS k y Hy). rewrite Ecl. congruence. }
    unfold teardown. rewrite Hx. fold cancel.
    cbn [sessions frames cleanup]. split; [|split; [exact Hall|split; [|split]]].
    + destruct (animationFrameId x =? 0)%nat.
      * exact HS2.
      * exact (Sound_filter _ (fun f => negb (fst f =? animationFrameId x)%nat) HS2).
    + intros k id [= <-] Hin.
      assert (Hin0 : In (id, s) (frames st)).
      { destruct (animationFrameId x =? 0)%nat; [exact Hin|].
        apply filter_In in Hin. tauto. }
      destruct (sound_frames st HS id s Hin0) as (y & Hy & Hid & _ & Hpos).
      rewrite Hx in Hy. injection Hy as <-.
      destruct (Nat.eqb_spec (animationFrameId x) 0) as [Hz|_]; [lia|].
      apply filter_In in Hin. destruct Hin as [_ Hne]. cbn [fst] in Hne.
      rewrite Hid, Nat.eqb_refl in Hne. discriminate.
    + apply list_update_length.
    + exact Ecl.
  - split; [exact HS|]. split; [|split; [discriminate|split; [reflexivity|exact Ecl]]].
    intros k y Hy. apply (sound_others st HS k y Hy). rewrite Ecl. discriminate.
Qed.

Lemma Sound_step (st : Hook) (ev : Event) : Sound st -> Sound (step st ev).
Proof.
  intros HS. destruct ev as [m enabled|s o|s o snapshot|id snapshot]; cbn [step].
  - (* the effect re-runs *)
    destruct (Sound_cleanup_phase st HS) as (HS1 & Hall & _ & _ & _).
    set (st1 := match cleanup st with Some s => teardown s st | None => st end) in *.
    destruct HS1 as [H1 H2 H3 H4 H5 H6].
    destruct enabled; unfold effectBody; cbn [negb].
    + split; unfold framesShaped, othersCancelled;
        cbn [frames sessions cleanup bands nextFrame]; try assumption.
      * intros id s Hin. destruct (H1 id s Hin) as (y & Hy & Hrest).
        exists y. split; [|exact Hrest].
        rewrite nth_error_app1; [exact Hy|].
        apply nth_error_Some. congruence.
      * intros k y Hy Hk.
        destruct (Nat.lt_ge_cases k (length (sessions st1))) as [Hlt|Hge].
        -- rewrite nth_error_app1 in Hy by exact Hlt. exact (Hall k y Hy).
        -- assert (length (sessions st1) < k)%nat as Hgt
             by (destruct (Nat.eq_dec k (length (sessions st1))); [congruence|lia]).
           assert (nth_error (sessions st1 ++
                     [{| mode := m; cancelled := false; animationFrameId := 0;
                         stage := GettingStream |}]) k = None) as Hnone
             by (apply nth_error_None; rewrite length_app; simpl; lia).
           congruence.
      * intros s [= <-]. rewrite length_app. simpl. lia.
    + split; unfold framesShaped, othersCancelled;
        cbn [frames sessions cleanup bands nextFrame]; try assumption.
      * intros k y Hy _. exact (Hall k y Hy).
      * discriminate.
  - (* the media stream promise settles *)
    destruct (nth_error (sessions st) s) as [x|] eqn:Hx; [|exact HS].
    destruct (stage x) eqn:Hs; try exact HS.
    destruct o as [|caught].
    + destruct (cancelled x).
      * apply (Sound_setStage st s x); [exact HS|exact Hx|congruence].
      * apply Sound_setError, (Sound_setStage st s x); [exact HS|exact Hx|congruence].
    + apply Sound_setError, (Sound_setStage st s x); [exact HS|exact Hx|congruence].
  - (* audioContext.resume() settles *)
    destruct (nth_error (sessions st) s) as [x|] eqn:Hx; [|exact HS].
    destruct (stage x) eqn:Hs; try exact HS.
    destruct o as [|caught].
    + assert (HS' : Sound (setSession st s (setStage Started)))
        by (apply (Sound_setStage st s x); [exact HS|exact Hx|congruence]).
      apply (Sound_runTick _ s (setStage Started x)); try exact HS'.
      * cbn [setSession sessions]. now rewrite list_update_nth_same, Hx.
      * reflexivity.
      * cbn [setSession frames]. intros id Hin.
        destruct (sound_frames st HS id s Hin) as (y & Hy & _ & Hst & _).
        congruence.
    + apply Sound_setError, (Sound_setStage st s x); [exact HS|exact Hx|congruence].
  - (* an animation frame fires *)
    destruct (find (fun f => (fst f =? id)%nat) (frames st)) as [[id' s]|] eqn:Hfind;
      [|exact HS].
    apply find_some in Hfind. destruct Hfind as [Hin Hid].
    cbn [fst] in Hid. apply Nat.eqb_eq in Hid. subst id'.
    destruct (sound_frames st HS id s Hin) as (x & Hx & Hxid & Hxs & _).
    apply (Sound_runTick _ s x); cbn [frames sessions]; try assumption.
    + exact (Sound_filter st (fun f => negb (fst f =? id)%nat) HS).
    + intros id2 Hin2. apply filter_In in Hin2. destruct Hin2 as [Hin2 Hne].
      cbn [fst] in Hne.
      destruct (sound_frames st HS id2 s Hin2) as (y & Hy & Hyid & _).
      rewrite Hx in Hy. injection Hy as <-.
      rewrite <- Hyid, Hxid, Nat.eqb_refl in Hne. discriminate.
Qed.

Lemma Sound_run (evs : list Event) : forall st : Hook, Sound st -> Sound (run st evs).
Proof.
  induction evs as [|ev evs IH]; intros st HS; [exact HS|].
  apply (IH (step st ev)), Sound_step, HS.
Qed.

(** X11.  In every run, late resumes included, the pending animation
    frames have distinct ids, at most one belongs to each session, and
    each belongs to a started session that remembers its id, an id
    between [1] and the next id to hand out: a tick loop never forks. *)
Theorem pending_frames_one_per_session :
  forall evs : list Event,
    let st := run init evs in
    NoDup (map fst (frames st)) /\
    NoDup (map snd (frames st)) /\
    (forall id s, In (id, s) (frames st) ->
       (0 < id < nextFrame st)%nat /\
       exists x, nth_error (sessions st) s = Some x /\
                 animationFrameId x = id /\ stage x = Started).
Proof.
  intros evs st. pose proof (Sound_run evs init Sound_init) as HS. fold st in HS.
  split; [exact (sound_ids st HS)|]. split; [exact (sound_owners st HS)|].
  intros id s Hin.
  destruct (sound_frames st HS id s Hin) as (x & Hx & Hid & Hst & Hlt).
  split; [exact Hlt|]. exists x. tauto.
Qed.

Lemma pending_frames_one_per_session_witness :
  In (1%nat, 0%nat) (frames (run init lateResumeTrace)) /\
  (0 < 1 < nextFrame (run init lateResumeTrace))%nat.
Proof.
  assert (Hin : In (1%nat, 0%nat) (frames (run init lateResumeTrace))) by (now left).
  split; [exact Hin|].
  exact (proj1 (proj2 (proj2 (pending_frames_one_per_session lateResumeTrace))
                  1%nat 0%nat Hin)).
Defined.

(** X12.  Whenever the effect re-runs, the session whose cleanup it
    runs ends up cancelled with no animation frame pending, in every
    run and whether the effect is enabled or not. *)
Theorem teardown_cancels_pending_frame :
  forall (evs : list Event) (m : AudioMode) (enabled : bool) (s : nat),
    cleanup (run init evs) = Some s ->
    let st' := step (run init evs) (Effect m enabled) in
    (exists x, nth_error (sessions st') s = Some x /\ cancelled x = true) /\
    (forall id, ~ In (id, s) (frames st')).
Proof.
  intros evs m enabled s Hcl st'.
  pose proof (Sound_run evs init Sound_init) as HS.
  destruct (Sound_cleanup_phase _ HS) as (HS1 & Hall & Hnone & Hlen & _).
  pose proof (sound_cleanup _ HS s Hcl) as Hlt.
  unfold st'. cbn [step].
  set (st1 := match cleanup (run init evs) with
              | Some s => teardown s (run init evs)
              | None => run init evs
              end) in *.
  rewrite <- Hlen in Hlt.
  destruct (nth_error (sessions st1) s) as [x|] eqn:Hx;
    [|apply nth_error_None in Hx; lia].
  destruct enabled; unfold effectBody; cbn [negb sessions frames]; split.
  - exists x. split; [|exact (Hall s x Hx)].
    rewrite nth_error_app1 by exact Hlt. exact Hx.
  - intros id. exact (Hnone s id Hcl).
  - exists x. split; [exact Hx|exact (Hall s x Hx)].
  - intros id. exact (Hnone s id Hcl).
Qed.

Lemma teardown_cancels_pending_frame_witness :
  cleanup (run init [Effect tab true; StreamSettled 0 Resolved;
                     ResumeSettled 0 Resolved bassOnly]) = Some 0%nat /\
  ~ In (1%nat, 0%nat)
      (frames (step (run init [Effect tab true; StreamSettled 0 Resolved;
                               ResumeSettled 0 Resolved bassOnly])
                    (Effect mic true))).
Proof.
  assert (Hcl : cleanup (run init [Effect tab true; StreamSettled 0 Resolved;
                                   ResumeSettled 0 Resolved bassOnly]) = Some 0%nat)
    by reflexivity.
  split; [exact Hcl|].
  exact (proj2 (teardown_cancels_pending_frame _ mic true 0%nat Hcl) 1%nat).
Defined.

(** X13.  In every run, a session that has not been torn down is the
    one whose cleanup React holds: at most one session at a time is left
    uncancelled, and none while the effect is disabled. *)
Theorem single_live_session :
  forall (evs : list Event) (s : nat) (x : Session),
    nth_error (sessions (run init evs)) s = Some x ->
    cancelled x = false ->
    cleanup (run init evs) = Some s /\
    disabled (run init evs) = false /\
    (forall s' x', nth_error (sessions (run init evs)) s' = Some x' ->
                   cancelled x' = false -> s' = s).
Proof.
  intros evs s x Hx Hc.
  pose proof (Sound_run evs init Sound_init) as HS.
  assert (Hown : forall k y, nth_error (sessions (run init evs)) k = Some y ->
                             cancelled y = false -> cleanup (run init evs) = Some k).
  { intros k y Hy Hyc.
    pose proof (sound_others _ HS k y Hy) as Ho.
    destruct (cleanup (run init evs)) as [c|].
    - destruct (Nat.eq_dec c k) as [->|Hne]; [reflexivity|].
      rewrite Ho in Hyc by congruence. discriminate.
    - rewrite Ho in Hyc by discriminate. discriminate. }
  pose proof (Hown s x Hx Hc) as Hs.
  split; [exact Hs|]. split; [unfold disabled; now rewrite Hs|].
  intros s' x' Hx' Hc'. pose proof (Hown s' x' Hx' Hc') as Hs'. congruence.
Qed.

Lemma single_live_session_witness :
  nth_error (sessions (run init modeSwitchTrace)) 1 =
    Some {| mode := mic; cancelled := false; animationFrameId := 0; stage := Finished |} /\
  cleanup (run init modeSwitchTrace) = Some 1%nat.
Proof.
  assert (Hx : nth_error (sessions (run init modeSwitchTrace)) 1 =
               Some {| mode := mic; cancelled := false; animationFrameId := 0;
                       stage := Finished |}) by reflexivity.
  split; [exact Hx|].
  exact (proj1 (single_live_session modeSwitchTrace 1 _ Hx eq_refl)).
Defined.

Lemma quiet_step (st : Hook) (s : nat) (ev : Event) :
  quiet st s -> quiet (step st ev) s.
Proof.
  intros [(x & Hx & Hc & Hs) Hnone].
  assert (Hlt : (s < length (sessions st))%nat) by (apply nth_error_Some; congruence).
  destruct ev as [m enabled|k o|k o snapshot|id snapshot]; cbn [step].
  - (* the effect re-runs *)
    assert (H1 : quiet (match cleanup st with
                        | Some k => teardown k st
                        | None => st
                        end) s).
    { destruct (cleanup st) as [k|]; [|split; [exists x; tauto|exact Hnone]].
      unfold teardown. destruct (nth_error (sessions st) k) as [y|] eqn:Hy;
        [|split; [exists x; tauto|exact Hnone]].
      split; cbn [sessions frames].
      - rewrite nth_error_list_update. destruct (Nat.eqb_spec k s) as [->|_].
        + rewrite Hx. cbn [option_map]. eexists. split; [reflexivity|].
          cbn [cancelled stage]. tauto.
        + exists x. tauto.
      - intros id Hin. apply (Hnone id).
        destruct (animationFrameId y =? 0)%nat; [exact Hin|].
        apply filter_In in Hin. tauto. }
    destruct H1 as [(x1 & Hx1 & Hc1 & Hs1) Hnone1].
    destruct enabled; unfold effectBody; cbn [negb]; split; cbn [sessions frames];
      try exact Hnone1.
    + exists x1. split; [|tauto].
      rewrite nth_error_app1; [exact Hx1|]. apply nth_error_Some. congruence.
    + exists x1. tauto.
  - (* the media stream promise settles *)
    destruct (nth_error (sessions st) k) as [y|] eqn:Hy;
      [|split; [exists x; tauto|exact Hnone]].
    assert (Hq : forall g, (k = s -> g = Finished) ->
                           quiet (setSession st k (setStage g)) s).
    { intros g Hg. split; cbn [setSession sessions frames]; [|exact Hnone].
      rewrite nth_error_list_update. destruct (Nat.eqb_spec k s) as [->|_].
      - rewrite Hx. cbn [option_map]. eexists. split; [reflexivity|].
        cbn [setStage cancelled stage]. rewrite (Hg eq_refl). tauto.
      - exists x. tauto. }
    destruct (stage y) eqn:Hsy; try (split; [exists x; tauto|exact Hnone]).
    destruct o as [|caught].
    + destruct (cancelled y) eqn:Hcy.
      * apply Hq. reflexivity.
      * assert (k <> s) by (intros ->; congruence).
        destruct (Hq Resuming) as [Hq1 Hq2]; [congruence|].
        split; [exact Hq1|exact Hq2].
    + destruct (Hq Finished) as [Hq1 Hq2]; [reflexivity|].
      split; [exact Hq1|exact Hq2].
  - (* audioContext.resume() settles *)
    destruct (nth_error (sessions st) k) as [y|] eqn:Hy;
      [|split; [exists x; tauto|exact Hnone]].
    destruct (stage y) eqn:Hsy; try (split; [exists x; tauto|exact Hnone]).
    assert (Hne : k <> s).
    { intros ->. rewrite Hx in Hy. injection Hy as <-. destruct Hs; congruence. }
    destruct o as [|caught].
    + split; cbn [runTick setSession sessions frames].
      * rewrite !nth_error_list_update.
        destruct (Nat.eqb_spec k s) as [E|_]; [contradiction|]. exists x. tauto.
      * intros id Hin. apply in_app_or in Hin. destruct Hin as [Hin|[[= _ E]|[]]];
          [exact (Hnone id Hin)|congruence].
    + split; cbn [setError setSession sessions frames]; [|exact Hnone].
      rewrite nth_error_list_update.
      destruct (Nat.eqb_spec k s) as [E|_]; [contradiction|]. exists x. tauto.
  - (* an animation frame fires *)
    destruct (find (fun f => (fst f =? id)%nat) (frames st)) as [[id' k]|] eqn:Hfind;
      [|split; [exists x; tauto|exact Hnone]].
    apply find_some in Hfind. destruct Hfind as [Hin _].
    assert (Hne : k <> s) by (intros ->; exact (Hnone id' Hin)).
    split; cbn [runTick sessions frames].
    + rewrite nth_error_list_update.
      destruct (Nat.eqb_spec k s) as [E|_]; [contradiction|]. exists x. tauto.
    + intros id2 Hin2. apply in_app_or in Hin2. destruct Hin2 as [Hin2|[[= _ E]|[]]];
        [|congruence].
      apply filter_In in Hin2. exact (Hnone id2 (proj1 Hin2)).
Qed.

(** X14.  A session torn down while it was still awaiting its media
    stream never starts: whatever happens afterwards, it stays
    cancelled, goes from awaiting to finished at most, and never has an
    animation frame pending, so it never writes the bands. *)
Theorem cancelled_in_picker_never_starts :
  forall (st : Hook) (s : nat) (x : Session) (evs : list Event),
    nth_error (sessions st) s = Some x ->
    cancelled x = true ->
    stage x = GettingStream ->
    (forall id, ~ In (id, s) (frames st)) ->
    (exists x', nth_error (sessions (run st evs)) s = Some x' /\
                cancelled x' = true /\
                (stage x' = GettingStream \/ stage x' = Finished)) /\
    (forall id, ~ In (id, s) (frames (run st evs))).
Proof.
  intros st s x evs Hx Hc Hs Hnone.
  assert (Hq : quiet st s) by (split; [exists x; tauto|exact Hnone]).
  clear Hx Hc Hs Hnone x. revert st Hq.
  induction evs as [|ev evs IH]; intros st Hq; [exact Hq|].
  apply (IH (step st ev)), quiet_step, Hq.
Qed.

Lemma cancelled_in_picker_never_starts_witness :
  nth_error (sessions stoppedInPicker) 0 =
    Some {| mode := tab; cancelled := true; animationFrameId := 0;
            stage := GettingStream |} /\
  (forall id, ~ In (id, 0%nat) (frames stoppedInPicker)) /\
  (forall id, ~ In (id, 0%nat)
     (frames (run stoppedInPicker
                [StreamSettled 0 Resolved; ResumeSettled 0 Resolved bassOnly;
                 AnimationFrame 1 bassOnly]))).
Proof.
  assert (Hx : nth_error (sessions stoppedInPicker) 0 =
               Some {| mode := tab; cancelled := true; animationFrameId := 0;
                       stage := GettingStream |}) by reflexivity.
  assert (Hnone : forall id, ~ In (id, 0%nat) (frames stoppedInPicker))
    by (intros id []).
  split; [exact Hx|]. split; [exact Hnone|].
  exact (proj2 (cancelled_in_picker_never_starts stoppedInPicker 0 _
                  [StreamSettled 0 Resolved; ResumeSettled 0 Resolved bassOnly;
                   AnimationFrame 1 bassOnly] Hx eq_refl eq_refl Hnone)).
Defined.

(** * Further properties of the frame callbacks *)

Lemma mounted_length (refs : Refs) : length (mounted refs) = length refs.
Proof. apply length_map. Qed.

Lemma setPositionY_mounts (refs : Refs) :
  forall (index : nat) (y : R), mounted (setPositionY refs index y) = mounted refs.
Proof.
  induction refs as [|g refs IH]; intros [|index] y; try reflexivity.
  - destruct g; reflexivity.
  - unfold setPositionY, mounted in *. cbn [list_update map]. f_equal. apply IH.
Qed.

Lemma forEach_frame_mounts (t pulse : R) (ls : list RidgeLayer) :
  forall (from : nat) (refs : Refs * Refs),
    mounted (fst (forEach_from (frameLayer t pulse) ls from refs)) = mounted (fst refs) /\
    mounted (snd (forEach_from (frameLayer t pulse) ls from refs)) = mounted (snd refs).
Proof.
  induction ls as [|a ls IH]; intros from refs; cbn [forEach_from]; [now split|].
  destruct (IH (S from) (frameLayer t pulse a from refs)) as [Hl Hr].
  rewrite Hl, Hr. unfold frameLayer. cbn [fst snd].
  now rewrite !setPositionY_mounts.
Qed.

(** Slots past the last layer are out of reach of the iteration. *)
Lemma forEach_frame_after (t pulse : R) (ls : list RidgeLayer) :
  forall (from k : nat) (refs : Refs * Refs),
    (from + length ls <= k)%nat ->
    nth_error (fst (forEach_from (frameLayer t pulse) ls from refs)) k
      = nth_error (fst refs) k /\
    nth_error (snd (forEach_from (frameLayer t pulse) ls from refs)) k
      = nth_error (snd refs) k.
Proof.
  induction ls as [|a ls IH]; intros from k refs Hk; cbn [forEach_from]; [now split|].
  cbn [length] in Hk.
  destruct (IH (S from) k (frameLayer t pulse a from refs)) as [Hl Hr]; [lia|].
  rewrite Hl, Hr. unfold frameLayer. cbn [fst snd].
  rewrite !setPositionY_other by lia. now split.
Qed.

(** X15.  The frame callback of the ranges only moves groups that are
    mounted and have a layer: it keeps both ref arrays at their length,
    leaves unmounted slots unmounted and mounted ones mounted, and does
    not touch a slot at or past the number of layers. *)
Theorem frame_touches_mounted_layers_only :
  forall (ls : list RidgeLayer) (w : World) (leftRefs rightRefs : Refs) (k : nat),
    let (leftRefs', rightRefs') := valleyFrame ls w (leftRefs, rightRefs) in
    mounted leftRefs' = mounted leftRefs /\
    mounted rightRefs' = mounted rightRefs /\
    length leftRefs' = length leftRefs /\
    length rightRefs' = length rightRefs /\
    ((length ls <= k)%nat ->
     nth_error leftRefs' k = nth_error leftRefs k /\
     nth_error rightRefs' k = nth_error rightRefs k).
Proof.
  intros ls w leftRefs rightRefs k. unfold valleyFrame.
  pose proof (forEach_frame_mounts (clock w) (mid (bandsRef w)) ls 0
                (leftRefs, rightRefs)) as [Ml Mr].
  pose proof (forEach_frame_after (clock w) (mid (bandsRef w)) ls 0 k
                (leftRefs, rightRefs)) as Ha.
  destruct (forEach_from _ ls 0%nat (leftRefs, rightRefs)) as [l' r'].
  cbn [fst snd] in *.
  split; [exact Ml|]. split; [exact Mr|].
  split; [rewrite <- (mounted_length l'), Ml; apply mounted_length|].
  split; [rewrite <- (mounted_length r'), Mr; apply mounted_length|].
  intros Hk. apply Ha. lia.
Qed.

Lemma frame_touches_mounted_layers_only_witness :
  (length [frontLayer] <= 1)%nat /\
  nth_error (fst (valleyFrame [frontLayer] emptyWorld
                    ([None; Some (Three.mkGroup 7)], [None; None]))) 1
  = Some (Some (Three.mkGroup 7)).
Proof.
  assert (Hk : (length [frontLayer] <= 1)%nat) by (simpl; lia).
  split; [exact Hk|].
  exact (proj1 (proj2 (proj2 (proj2 (proj2
    (frame_touches_mounted_layers_only [frontLayer] emptyWorld
       [None; Some (Three.mkGroup 7)] [None; None] 1)))) Hk)).
Defined.

Lemma between_stays (lo hi a b c : R) :
  lo <= a <= hi -> lo <= b <= hi -> between a b c -> lo <= c <= hi.
Proof.
  unfold between, Rmin, Rmax. intros Ha Hb Hc.
  destruct (Rle_dec a b); lra.
Qed.

(** The target of a frame lies in the drift box when bass and treble lie
    in [[0, 1]]. *)
Lemma cameraDrift_target (vlerp : Vector3 -> Vector3 -> R -> Vector3)
    (w : World) (rig : CameraRig) :
  unitBands (bandsRef w) ->
  inDriftBox (targetPosition (cameraDrift vlerp w rig)).
Proof.
  intros (Hb & _ & Ht). unfold cameraDrift, inDriftBox, JS.Math_sin.
  cbn [targetPosition v_x v_y v_z].
  pose proof (SIN_bound (clock w * 0.18)).
  pose proof (SIN_bound (clock w * 0.36)).
  pose proof (SIN_bound (clock w * 0.25)).
  repeat split; lra.
Qed.

(** X16.  The camera drifts inside a fixed box: if [Vector3.lerp] moves
    a point to somewhere between its two ends, then from its initial
    position the camera stays within [-0.35 <= x <= 0.57],
    [2.88 <= y <= 3.2], [7.8 <= z <= 8.2] over any number of frames
    whose bands lie in [[0, 1]], whatever the clock. *)
Theorem camera_stays_in_drift_box :
  forall (vlerp : Vector3 -> Vector3 -> R -> Vector3) (ws : list World),
    lerpsBetween vlerp ->
    Forall (fun w => unitBands (bandsRef w)) ws ->
    inDriftBox (cameraPosition (cameraFrames vlerp ws initialRig)).
Proof.
  intros vlerp ws Hlerp Hws.
  assert (Hgen : forall rig, inDriftBox (cameraPosition rig) ->
                             inDriftBox (cameraPosition (cameraFrames vlerp ws rig))).
  { induction Hws as [|w ws Hw _ IH]; intros rig Hrig; [exact Hrig|].
    change (cameraFrames vlerp (w :: ws) rig)
      with (cameraFrames vlerp ws (cameraDrift vlerp w rig)).
    apply IH.
    pose proof (cameraDrift_target vlerp w rig Hw) as (Tx & Ty & Tz).
    destruct Hrig as (Px & Py & Pz).
    destruct (Hlerp (cameraPosition rig) (targetPosition (cameraDrift vlerp w rig)))
      as (Bx & By & Bz).
    change (cameraPosition (cameraDrift vlerp w rig))
      with (vlerp (cameraPosition rig) (targetPosition (cameraDrift vlerp w rig)) 0.05).
    repeat split;
      first [ apply (between_stays _ _ _ _ _ Px Tx Bx)
            | apply (between_stays _ _ _ _ _ Py Ty By)
            | apply (between_stays _ _ _ _ _ Pz Tz Bz) ]. }
  apply Hgen. unfold inDriftBox, initialRig. cbn [cameraPosition v_x v_y v_z]. lra.
Qed.

Lemma linearVlerp_between : lerpsBetween linearVlerp.
Proof.
  intros p q. unfold linearVlerp, between, Three.lerp, Rmin, Rmax.
  cbn [v_x v_y v_z].
  repeat split;
    match goal with
    | |- context [Rle_dec ?a ?b] => destruct (Rle_dec a b); lra
    end.
Qed.

Lemma camera_stays_in_drift_box_witness :
  lerpsBetween linearVlerp /\
  Forall (fun w => unitBands (bandsRef w))
    [mkWorld 1 (mkBands 1 0 1) []; mkWorld 2 EMPTY_BANDS []] /\
  inDriftBox (cameraPosition
    (cameraFrames linearVlerp
       [mkWorld 1 (mkBands 1 0 1) []; mkWorld 2 EMPTY_BANDS []] initialRig)).
Proof.
  assert (Hws : Forall (fun w => unitBands (bandsRef w))
                  [mkWorld 1 (mkBands 1 0 1) []; mkWorld 2 EMPTY_BANDS []]).
  { apply Forall_cons; [unfold unitBands; simpl; lra|].
    apply Forall_cons; [unfold unitBands; simpl; lra|apply Forall_nil]. }
  split; [exact linearVlerp_between|]. split; [exact Hws|].
  exact (camera_stays_in_drift_box linearVlerp _ linearVlerp_between Hws).
Defined.

Lemma clamp_unit (x : R) : 0 <= GLSL.clamp x 0 1 <= 1.
Proof.
  unfold GLSL.clamp, Rmin, Rmax.
  destruct (Rle_dec x 0); destruct (Rle_dec _ 1); lra.
Qed.

Lemma smoothstep_unit (edge0 edge1 x : R) : 0 <= GLSL.smoothstep edge0 edge1 x <= 1.
Proof.
  unfold GLSL.smoothstep. cbv zeta.
  pose proof (clamp_unit ((x - edge0) / (edge1 - edge0))) as Ht.
  set (t := GLSL.clamp _ 0 1) in *.
  assert (0 <= t * t) as Hsq by nra.
  assert (0 <= (1 - t) * (1 - t)) as Hsq' by nra.
  split.
  - apply Rmult_le_pos; [exact Hsq|lra].
  - assert (0 <= (1 - t) * (1 - t) * (1 + 2 * t)) as Hc
      by (apply Rmult_le_pos; [exact Hsq'|lra]).
    replace ((1 - t) * (1 - t) * (1 + 2 * t)) with (1 - t * t * (3 - 2 * t)) in Hc
      by ring.
    lra.
Qed.

Lemma smoothstep_below (edge0 edge1 x : R) :
  edge0 < edge1 -> x <= edge0 -> GLSL.smoothstep edge0 edge1 x = 0.
Proof.
  intros He Hx. unfold GLSL.smoothstep, GLSL.clamp. cbv zeta.
  assert ((x - edge0) / (edge1 - edge0) <= 0) as Hq.
  { unfold Rdiv. assert (0 < / (edge1 - edge0)) by (apply Rinv_0_lt_compat; lra). nra. }
  unfold Rmin, Rmax.
  destruct (Rle_dec ((x - edge0) / (edge1 - edge0)) 0); [|lra].
  destruct (Rle_dec 0 1); [ring|lra].
Qed.

Lemma smoothstep_above (edge0 edge1 x : R) :
  edge0 < edge1 -> edge1 <= x -> GLSL.smoothstep edge0 edge1 x = 1.
Proof.
  intros He Hx. unfold GLSL.smoothstep, GLSL.clamp. cbv zeta.
  assert (1 <= (x - edge0) / (edge1 - edge0)) as Hq.
  { unfold Rdiv. assert (0 < / (edge1 - edge0)) as Hi by (apply Rinv_0_lt_compat; lra).
    pose proof (Rinv_r (edge1 - edge0) ltac:(lra)) as Hone. nra. }
  unfold Rmin, Rmax.
  destruct (Rle_dec ((x - edge0) / (edge1 - edge0)) 0); [lra|].
  destruct (Rle_dec ((x - edge0) / (edge1 - edge0)) 1) as [Hle|_]; [|ring].
  replace ((x - edge0) / (edge1 - edge0)) with 1 by lra. ring.
Qed.

Lemma gridToWorld_eq (p : Vector3) :
  gridToWorld p = mkVector3 (v_x p) (v_z p - 1.02) (- v_y p - 1).
Proof.
  unfold gridToWorld, rotateX. cbv zeta. cbn [v_x v_y v_z].
  replace (- PI / 2) with (- (PI / 2)) by lra.
  rewrite cos_neg, sin_neg, cos_PI2, sin_PI2. f_equal; lra.
Qed.

(** X17.  The vertex shader of the grid changes the [y] coordinate of a
    vertex in the frame of the plane only, by an amount between
    [-0.45 * bass] and [1.25 + 0.45 * bass], and by at most
    [0.45 * bass] either way on the strip [|uv.x - 0.5| <= 0.4].  As the
    mesh is turned by [-PI / 2] about its [x] axis, that coordinate is
    depth in the world: the shader leaves the world [x] and the world
    height of every vertex as they are and slides the vertex along the
    world [z] axis.  [vPath] lies in [[0, 1]], is [1] for
    [|uv.x - 0.5| <= 0.08] and [0] for [|uv.x - 0.5| >= 0.42]. *)
Theorem grid_shader_slides_in_depth :
  forall (uv_x time bass_ : R) (position : Vector3),
    0 <= bass_ <= 1 ->
    let (p, vPath) := gridVertex uv_x position time bass_ in
    v_x p = v_x position /\ v_z p = v_z position /\
    v_y position - 0.45 * bass_ <= v_y p <= v_y position + 1.25 + 0.45 * bass_ /\
    (Rabs (uv_x - 0.5) <= 0.4 -> Rabs (v_y p - v_y position) <= 0.45 * bass_) /\
    v_x (gridToWorld p) = v_x (gridToWorld position) /\
    v_y (gridToWorld p) = v_y (gridToWorld position) /\
    v_z (gridToWorld position) - 1.25 - 0.45 * bass_ <= v_z (gridToWorld p)
      <= v_z (gridToWorld position) + 0.45 * bass_ /\
    (Rabs (uv_x - 0.5) <= 0.4 ->
     Rabs (v_z (gridToWorld p) - v_z (gridToWorld position)) <= 0.45 * bass_) /\
    0 <= vPath <= 1 /\
    (Rabs (uv_x - 0.5) <= 0.08 -> vPath = 1) /\
    (0.42 <= Rabs (uv_x - 0.5) -> vPath = 0).
Proof.
  intros uv_x time bass_ position Hb. unfold gridVertex, JS.Math_sin. cbv zeta.
  rewrite !gridToWorld_eq. cbn [v_x v_y v_z].
  pose proof (smoothstep_unit 0.8 1.0 (Rabs (uv_x - 0.5) * 2.0)) as Hs.
  pose proof (smoothstep_unit 0.08 0.42 (Rabs (uv_x - 0.5))) as Hp.
  pose proof (SIN_bound ((v_z position + time * 7.0) * 0.45)) as Hsin.
  set (s := sin _) in *.
  split; [reflexivity|]. split; [reflexivity|]. split; [split; nra|].
  split.
  { intros Hmid. rewrite (smoothstep_below 0.8 1.0) by lra.
    apply Rabs_le. split; nra. }
  split; [reflexivity|]. split; [reflexivity|]. split; [split; nra|].
  split.
  { intros Hmid. rewrite (smoothstep_below 0.8 1.0) by lra.
    apply Rabs_le. split; nra. }
  split; [lra|]. split.
  - intros Hc. rewrite (smoothstep_below 0.08 0.42) by lra. lra.
  - intros Hc. rewrite (smoothstep_above 0.08 0.42) by lra. lra.
Qed.

Lemma grid_shader_slides_in_depth_witness :
  0 <= 1 <= 1 /\
  v_y (gridToWorld (fst (gridVertex 0.25 (mkVector3 3 (-4) 0) 10 1)))
  = v_y (gridToWorld (mkVector3 3 (-4) 0)).
Proof.
  assert (Hb : 0 <= 1 <= 1) by lra.
  split; [exact Hb|].
  pose proof (grid_shader_slides_in_depth 0.25 10 1 (mkVector3 3 (-4) 0) Hb) as H.
  destruct (gridVertex 0.25 (mkVector3 3 (-4) 0) 10 1) as [p vPath].
  exact (proj1 (proj2 (proj2 (proj2 (proj2 (proj2 H)))))).
Defined.
